(** * The Groot Dictionary: the view model of [src/app/page.tsx]

    The page component keeps a handful of React state variables
    ([entries], [loading], [hasMore], [darkMode], [searchTerm],
    [currentPage], [translations]) and derives everything else from them.
    This development embeds

    - the filtered view ([filteredEntries], lines 38-43),
    - the translation loader ([loadTranslations], lines 46-76),
    - the dark-mode preference ([toggleDarkMode] and its persistence
      effect, lines 78-89 and 178-180),
    - the pagination engine ([loadMoreEntries], lines 102-135) and its
      triggers (lines 137-165), each function with the render whose
      state variables it closed over,

    and proves the properties the specification states about them; where
    the code departs from a stated property, the code is evaluated on a
    run that shows it. *)

From Stdlib Require Import Ascii String Arith ZArith Bool Lia.
From Stdlib Require Import DecimalString DecimalNat.
From stdpp Require Import base option list gmap strings.

#[local] Set Warnings "-register-all".

(** ** Strings

    A JavaScript string is a sequence of UTF-16 code units.  The
    development covers the code units below 256 (Basic Latin and Latin-1
    Supplement), which is what a Rocq [string] holds; on that range
    [toLowerCase] and [trim] are the functions below.  Outside that range
    the built-in lower-casing depends on the neighbouring characters, so
    nothing below relies on how lower-casing acts on a concatenation. *)

Module JSString.

(** Lower-case mapping of a code unit: A-Z, and the Latin-1 capitals
    U+00C0-U+00DE with the exception of the multiplication sign U+00D7. *)
Definition lowerCode (n : nat) : nat :=
  if (65 <=? n) && (n <=? 90) then n + 32
  else if (192 <=? n) && (n <=? 222) && negb (n =? 215) then n + 32
  else n.

Definition toLowerChar (c : ascii) : ascii :=
  ascii_of_nat (lowerCode (nat_of_ascii c)).

(** [String.prototype.toLowerCase]. *)
Fixpoint toLowerCase (s : string) : string :=
  match s with
  | EmptyString => EmptyString
  | String c s' => String (toLowerChar c) (toLowerCase s')
  end.

(** WhiteSpace and LineTerminator code units: TAB, LF, VT, FF, CR, SP
    and NBSP. *)
Definition isWhiteSpace (c : ascii) : bool :=
  let n := nat_of_ascii c in
  ((9 <=? n) && (n <=? 13)) || (n =? 32) || (n =? 160).

Fixpoint trimStart (s : string) : string :=
  match s with
  | EmptyString => EmptyString
  | String c s' => if isWhiteSpace c then trimStart s' else s
  end.

Fixpoint trimEnd (s : string) : string :=
  match s with
  | EmptyString => EmptyString
  | String c s' =>
      match trimEnd s' with
      | EmptyString => if isWhiteSpace c then EmptyString else String c EmptyString
      | t => String c t
      end
  end.

(** [String.prototype.trim]. *)
Definition trim (s : string) : string := trimEnd (trimStart s).

(** [String.prototype.startsWith]. *)
Definition startsWith (s searchString : string) : bool :=
  String.prefix searchString s.

(** [String.prototype.includes]: [searchString] occurs at some position
    of [s]. *)
Fixpoint includes (s searchString : string) : bool :=
  startsWith s searchString
  || match s with
     | EmptyString => false
     | String _ s' => includes s' searchString
     end.

(** A string made of white space only (the empty string included). *)
Fixpoint allWhiteSpace (s : string) : bool :=
  match s with
  | EmptyString => true
  | String c s' => isWhiteSpace c && allWhiteSpace s'
  end.

End JSString.

Import JSString.

(** ** Data model *)

(** [interface Translation { id: number; text: string }] *)
Record Translation := { id : nat; text : string }.

(** The literal fallback list of lines 12-23. *)
Definition FALLBACK_TRANSLATIONS : list string :=
  [ "Zephyrian consciousness seeks temporal equilibrium.";
    "The quantum squirrel has appropriated my sustenance cube.";
    "Your bio-electromagnetic field experiences processing delays.";
    "Caffeine synthesis required for optimal neural function.";
    "Cosmic forces conspire against data transmission protocols.";
    "My photosynthetic companion evaluates my existence parameters.";
    "Territorial attachment to this spatial coordinate intensifies.";
    "The void acknowledges my presence with courteous reciprocity.";
    "Peak procrastination algorithms have been successfully executed.";
    "My textile foot coverings harbor trust-related anomalies." ].

(** ** Filter view (lines 38-43) *)

Definition filteredEntries (entries : list Translation) (searchTerm : string)
  : list Translation :=
  if String.eqb (trim searchTerm) EmptyString then entries
  else List.filter
         (fun entry => includes (toLowerCase (text entry)) (toLowerCase searchTerm))
         entries.

(** The test the filter applies to one entry. *)
Definition matches (searchTerm : string) (entry : Translation) : bool :=
  includes (toLowerCase (text entry)) (toLowerCase searchTerm).

(** ** Pagination engine (lines 102-135)

    [loadMoreEntries] is re-created by [useCallback] whenever one of
    [currentPage], [loading], [hasMore], [translations] or
    [entries.length] changes, and the callback it hands to
    [requestAnimationFrame]/[setTimeout] keeps the values of the render
    that created it.  [Closure] records the three of them the callback
    reads; the state updates it performs are the functional ones of the
    source ([prev => ...]) and therefore act on the state at firing time.
    The guard of [loadMoreEntries] likewise reads the render that created
    the function, which [setLoading(true)] does not change. *)

Record Closure := {
  cl_currentPage : nat;
  cl_translations : list string;
  cl_entriesLength : nat
}.

(** The state variables of the component that pagination touches, and
    the callbacks scheduled but not yet run (oldest first). *)
Record State := {
  entries : list Translation;
  loading : bool;
  hasMore : bool;
  currentPage : nat;
  translations : list string;
  timers : list Closure
}.

Definition entriesPerPage : nat := 10.

(** The [for] loop of lines 114-122; [n] counts the iterations left. *)
Fixpoint forLoop (n startIndex i : nat) (translations : list string)
    (newEntries : list Translation) : list Translation :=
  match n with
  | 0 => newEntries
  | S n' =>
      let translationIndex := (startIndex + i) mod length translations in
      let entryId := startIndex + i in
      forLoop n' startIndex (S i) translations
        (newEntries ++ [ {| id := entryId;
                            text := nth translationIndex translations EmptyString |} ])
  end.

Definition newEntriesOf (c : Closure) : list Translation :=
  let startIndex := cl_currentPage c * entriesPerPage in
  forLoop entriesPerPage startIndex 0 (cl_translations c) [].

(** The body of the [setTimeout] callback (lines 110-132). *)
Definition timerCallback (c : Closure) (s : State) : State :=
  let newEntries := newEntriesOf c in
  {| entries := entries s ++ newEntries;
     currentPage := currentPage s + 1;
     loading := false;
     hasMore :=
       if length (cl_translations c) * 20 <=? cl_entriesLength c + length newEntries
       then false else hasMore s;
     translations := translations s;
     timers := timers s |}.

Definition capture (s : State) : Closure :=
  {| cl_currentPage := currentPage s;
     cl_translations := translations s;
     cl_entriesLength := length (entries s) |}.

(** [loadMoreEntries] (lines 102-109) as created by the render [render]
    and called while the state is [s]: the guard reads the state
    variables of [render] (the [useCallback] dependencies of line 135),
    [setLoading(true)] acts on the state, and the scheduled callback
    keeps the values of [render]. *)
Definition loadMoreEntriesFrom (render s : State) : State :=
  if loading render || negb (hasMore render)
     || (length (translations render) =? 0)
  then s
  else {| entries := entries s;
          currentPage := currentPage s;
          loading := true;
          hasMore := hasMore s;
          translations := translations s;
          timers := timers s ++ [capture render] |}.

(** The call made through the function of the latest render, which has
    seen the state as it is. *)
Definition loadMoreEntries (s : State) : State := loadMoreEntriesFrom s s.

(** The oldest scheduled callback runs. *)
Definition fireTimer (s : State) : State :=
  match timers s with
  | [] => s
  | c :: rest =>
      timerCallback c
        {| entries := entries s; currentPage := currentPage s;
           loading := loading s; hasMore := hasMore s;
           translations := translations s; timers := rest |}
  end.

(** The initial values of the [useState] calls (lines 26-35). *)
Definition mount : State :=
  {| entries := []; loading := false; hasMore := true; currentPage := 0;
     translations := []; timers := [] |}.

Definition setTranslations (ts : list string) (s : State) : State :=
  {| entries := entries s; currentPage := currentPage s; loading := loading s;
     hasMore := hasMore s; translations := ts; timers := timers s |}.

(** The component once the loader has delivered its list. *)
Definition loaded (ts : list string) : State := setTranslations ts mount.

(** The entry with identifier [i] over the source list [ts]. *)
Definition entryAt (ts : list string) (i : nat) : Translation :=
  {| id := i; text := nth (i mod length ts) ts EmptyString |}.

(** ** Triggers of the pagination engine (lines 137-165) *)

(** The initial-load effect (lines 138-142) of the render [render]. *)
Definition initialLoadEffectFrom (render s : State) : State :=
  if (0 <? length (translations render)) && (length (entries render) =? 0)
  then loadMoreEntriesFrom render s
  else s.

(** The effect of the latest render. *)
Definition initialLoadEffect (s : State) : State := initialLoadEffectFrom s s.

(** The [IntersectionObserver] callback (lines 147-151) installed by the
    render [render].  The browser hands it the list of observed changes,
    never empty; the callback reads the first one only. *)
Definition observerCallbackFrom (render : State) (isIntersecting : bool)
    (others : list bool) (s : State) : State :=
  if isIntersecting && hasMore render && negb (loading render)
  then loadMoreEntriesFrom render s
  else s.

(** The callback of the latest render. *)
Definition observerCallback (isIntersecting : bool) (others : list bool)
    (s : State) : State :=
  observerCallbackFrom s isIntersecting others s.

(** ** The page as a machine

    [live] holds the state variables as the updates so far have left
    them; [rendered] holds them as of the latest commit, which is what
    the functions installed by that commit read. *)
Record Page := { rendered : State; live : State }.

(** React commits a render and runs its effects, which re-create
    [loadMoreEntries], run the initial-load effect and replace the
    observer; the installed observer is notified; the oldest timer runs.
    Between a state update and the next commit the functions of the
    previous render are still the installed ones. *)
Inductive UIEvent :=
| Commit
| SentinelObserved (isIntersecting : bool) (others : list bool)
| TimerRuns.

Definition stepUI (p : Page) (ev : UIEvent) : Page :=
  match ev with
  | Commit =>
      {| rendered := live p;
         live := initialLoadEffectFrom (live p) (live p) |}
  | SentinelObserved isIntersecting others =>
      {| rendered := rendered p;
         live := observerCallbackFrom (rendered p) isIntersecting others (live p) |}
  | TimerRuns =>
      {| rendered := rendered p; live := fireTimer (live p) |}
  end.

Definition runUI (evs : list UIEvent) (p : Page) : Page :=
  fold_left stepUI evs p.

(** The loader has delivered its list [ts]; the render showing it is
    still to be committed. *)
Definition pageLoaded (ts : list string) : Page :=
  {| rendered := mount; live := loaded ts |}.

(** States the component can be in after its list [ts] was loaded. *)
Definition reachable (ts : list string) (s : State) : Prop :=
  exists evs, s = live (runUI evs (pageLoaded ts)).

(** The schedule in which React commits after every change, so that each
    call is made by the function of the latest render: the first page
    (commit of the list with its initial-load effect, commit of
    [loading], timer, commit), then [k] rounds of the sentinel coming
    into view (notification, commit, timer, commit). *)
Definition firstPage : list UIEvent := [Commit; Commit; TimerRuns; Commit].

Fixpoint scrollRounds (k : nat) : list UIEvent :=
  match k with
  | 0 => []
  | S k' =>
      SentinelObserved true [] :: Commit :: TimerRuns :: Commit
        :: scrollRounds k'
  end.

Definition scrollSession (k : nat) : list UIEvent :=
  firstPage ++ scrollRounds k.

(** The observer installed by the commit of the list is notified before
    the render of [loading] is committed; both timers run. *)
Definition doubleLoadAtMount : list UIEvent :=
  [Commit; SentinelObserved true []; TimerRuns; TimerRuns].

(** The installed observer is notified twice with no commit in between. *)
Definition doubleNotification : list UIEvent :=
  [SentinelObserved true []; SentinelObserved true []].

(** What holds of the states of the schedule without stale calls: the
    source list is fixed; the log is the first [10 * currentPage] entries
    of the cyclic enumeration; a callback is pending exactly while
    [loading] is set, and it captured the current values; [hasMore] is
    cleared exactly at the cap. *)
Definition invariant (ts : list string) (s : State) : Prop :=
  translations s = ts /\
  entries s = List.map (entryAt ts) (seq 0 (currentPage s * entriesPerPage)) /\
  (timers s = [] /\ loading s = false \/
   timers s = [capture s] /\ loading s = true /\ hasMore s = true /\ ts <> []) /\
  (if hasMore s
   then ts = [] /\ currentPage s = 0 \/
        currentPage s * entriesPerPage < length ts * 20
   else ts <> [] /\ currentPage s * entriesPerPage = length ts * 20).

(** What holds of every page the machine reaches, stale calls included:
    the source list is fixed; what was rendered lags behind the state;
    the log holds 10 entries per counted page, each with the text its id
    selects and an id below the log length; every pending callback
    captured the source list and values not ahead of the state; [hasMore]
    is cleared only at or beyond the cap. *)
Definition consistent (ts : list string) (p : Page) : Prop :=
  translations (live p) = ts
  /\ (translations (rendered p) = ts \/ translations (rendered p) = [])
  /\ currentPage (rendered p) <= currentPage (live p)
  /\ length (entries (rendered p)) <= length (entries (live p))
  /\ length (entries (live p)) = currentPage (live p) * entriesPerPage
  /\ Forall (fun e => e = entryAt ts (id e)
                      /\ id e < length (entries (live p)))
            (entries (live p))
  /\ Forall (fun c => cl_translations c = ts /\ ts <> []
                      /\ cl_currentPage c <= currentPage (live p)
                      /\ cl_entriesLength c <= length (entries (live p)))
            (timers (live p))
  /\ (hasMore (live p) = false ->
      ts <> [] /\ length ts * 20 <= length (entries (live p)))
  /\ (ts = [] -> entries (live p) = []).

(** ** Dark-mode preference (lines 29, 86-89, 178-180)

    [localStorage] is a key-value store; [writes] logs the [setItem]
    calls in order, [documentDark] is the presence of the class [dark]
    on the document element. *)

Record Theme := {
  darkMode : bool;
  localStorage : gmap string string;
  writes : list (string * string);
  documentDark : bool
}.

Definition darkModeKey : string := "groot-dark-mode".

Definition JSON_stringify_bool (b : bool) : string :=
  if b then "true" else "false".

(** The effect of lines 86-89, run after a render in which [darkMode]
    changed. *)
Definition persistDarkMode (t : Theme) : Theme :=
  {| darkMode := darkMode t;
     localStorage := <[darkModeKey := JSON_stringify_bool (darkMode t)]> (localStorage t);
     writes := writes t ++ [(darkModeKey, JSON_stringify_bool (darkMode t))];
     documentDark := darkMode t |}.

(** [setDarkMode(f)] followed by the render it causes: React skips the
    render (and the effect, whose dependency is [darkMode]) when the
    value is unchanged. *)
Definition setDarkMode (f : bool -> bool) (t : Theme) : Theme :=
  let next := f (darkMode t) in
  if Bool.eqb next (darkMode t) then t
  else persistDarkMode
         {| darkMode := next; localStorage := localStorage t;
            writes := writes t; documentDark := documentDark t |}.

(** [toggleDarkMode] (lines 178-180). *)
Definition toggleDarkMode (t : Theme) : Theme := setDarkMode negb t.

(** ** Translation loader (lines 46-76)

    [JSON.parse] returns an untyped value ([any]), so the loader is
    modelled over JavaScript values.  A JSON number is kept as an integer:
    the loader only ever asks whether it is zero. *)

Inductive JSValue :=
| JNull
| JBool (b : bool)
| JNumber (n : Z)
| JString (s : string)
| JArray (items : list JSValue)
| JObject (fields : list (string * JSValue)).

(** Exceptions inside the [try] block. *)
Inductive Result (A : Type) :=
| Return (a : A)
| Throw (error : string).
Arguments Return {A} a.
Arguments Throw {A} error.

Definition bind {A B : Type} (r : Result A) (k : A -> Result B) : Result B :=
  match r with
  | Return a => k a
  | Throw e => Throw e
  end.

Notation "'let!' x ':=' r 'in' k" := (bind r (fun x => k))
  (at level 10, x name, r at level 100, k at level 200).

(** What [fetch] and [response.text()] deliver: the fetch promise rejects,
    or a response arrives with its [ok] flag and a body ([None] when
    reading the body rejects). *)
Inductive FetchOutcome :=
| FetchRejected
| FetchResponse (ok : bool) (body : option string).

(** Own property of an object as [JSON.parse] builds it (of duplicate
    keys the last one wins). *)
Fixpoint ownProperty (fields : list (string * JSValue)) (key : string)
  : option JSValue :=
  match fields with
  | [] => None
  | (k, v) :: rest =>
      match ownProperty rest key with
      | Some w => Some w
      | None => if String.eqb k key then Some v else None
      end
  end.

(** [value[key]] for a property name that is not an array index; [None]
    is [undefined], and reading a property of [null] throws. *)
Definition getProperty (value : JSValue) (key : string)
  : Result (option JSValue) :=
  match value with
  | JNull => Throw "TypeError"
  | JBool _ | JNumber _ => Return None
  | JString s =>
      Return (if String.eqb key "length"
              then Some (JNumber (Z.of_nat (String.length s))) else None)
  | JArray items =>
      Return (if String.eqb key "length"
              then Some (JNumber (Z.of_nat (length items))) else None)
  | JObject fields => Return (ownProperty fields key)
  end.

(** Truthiness, as [||] tests it. *)
Definition truthy (v : option JSValue) : bool :=
  match v with
  | None | Some JNull => false
  | Some (JBool b) => b
  | Some (JNumber n) => negb (n =? 0)%Z
  | Some (JString s) => negb (String.eqb s EmptyString)
  | Some (JArray _) | Some (JObject _) => true
  end.

(** [v === 0]. *)
Definition strictEqualsZero (v : option JSValue) : bool :=
  match v with
  | Some (JNumber n) => (n =? 0)%Z
  | _ => false
  end.

Definition fallbackValue : JSValue :=
  JArray (List.map JString FALLBACK_TRANSLATIONS).

(** The test of line 57. *)
Definition looksLikeHtml (text : string) : bool :=
  startsWith (trim text) "<!DOCTYPE" || startsWith (trim text) "<html".

(** The [try] block of lines 48-68; its result is the argument of
    [setTranslations] on line 68.  [JSON_parse] is the built-in parser. *)
Definition tryLoadTranslations (JSON_parse : string -> Result JSValue)
    (response : FetchOutcome) : Result JSValue :=
  match response with
  | FetchRejected => Throw "fetch rejected"
  | FetchResponse ok body =>
      if negb ok then Throw "Failed to fetch translations"
      else
        let! text := match body with
                     | Some t => Return t
                     | None => Throw "body rejected"
                     end in
        if looksLikeHtml text
        then Throw "Received HTML instead of JSON"
        else
          let! data := JSON_parse text in
          let! field := getProperty data "grootTranslations" in
          let loadedTranslations :=
            match field with
            | Some v => if truthy field then v else JArray []
            | None => JArray []
            end in
          let! len := getProperty loadedTranslations "length" in
          if strictEqualsZero len then Throw "No translations in JSON file"
          else Return loadedTranslations
  end.

(** [loadTranslations]: the value handed to [setTranslations], by the
    [try] block (line 68) or by the [catch] block (line 72). *)
Definition loadTranslations (JSON_parse : string -> Result JSValue)
    (response : FetchOutcome) : JSValue :=
  match tryLoadTranslations JSON_parse response with
  | Return loadedTranslations => loadedTranslations
  | Throw _ => fallbackValue
  end.

(** The payload shape the specification expects: an object with a field
    that holds a list of strings. *)
Fixpoint stringItems (items : list JSValue) : option (list string) :=
  match items with
  | [] => Some []
  | JString s :: rest =>
      match stringItems rest with
      | Some l => Some (s :: l)
      | None => None
      end
  | _ => None
  end.

Definition expectedStructure (data : JSValue) : option (list string) :=
  match data with
  | JObject fields =>
      match ownProperty fields "grootTranslations" with
      | Some (JArray items) => stringItems items
      | _ => None
      end
  | _ => None
  end.

(** The failure conditions as the specification lists them: the retrieval
    errors, the payload is not parseable as the expected structure, or
    the parsed list is empty. *)
Definition specLoadFailure (JSON_parse : string -> Result JSValue)
    (response : FetchOutcome) : Prop :=
  match response with
  | FetchRejected => True
  | FetchResponse ok body =>
      ok = false \/
      match body with
      | None => True
      | Some text =>
          match JSON_parse text with
          | Throw _ => True
          | Return data =>
              expectedStructure data = None \/ expectedStructure data = Some []
          end
      end
  end.

(** A parser that knows one text only; it stands for [JSON.parse] where
    a concrete payload is needed. *)
Definition parseOnly (text : string) (data : JSValue) (input : string)
  : Result JSValue :=
  if String.eqb input text then Return data else Throw "SyntaxError".

Definition doubleQuote : string := String (ascii_of_nat 34) EmptyString.

(** The payload text [{ grootTranslations: 42 }], the key in double quotes. *)
Definition numberPayload : string :=
  "{" +:+ doubleQuote +:+ "grootTranslations" +:+ doubleQuote +:+ ": 42}".

Definition numberPayloadData : JSValue :=
  JObject [("grootTranslations", JNumber 42)].

(** The payload text [{ grootTranslations: [ Groot ] }], key and item in
    double quotes. *)
Definition listPayload : string :=
  "{" +:+ doubleQuote +:+ "grootTranslations" +:+ doubleQuote +:+ ": ["
  +:+ doubleQuote +:+ "Groot" +:+ doubleQuote +:+ "]}".

Definition listPayloadData : JSValue :=
  JObject [("grootTranslations", JArray [JString "Groot"])].

(** ** What the page shows (lines 182, 297, 310) *)

(** The placeholder screen replaces the page (line 182). *)
Definition showPlaceholder (s : State) : bool :=
  (length (translations s) =? 0) && (length (entries s) =? 0).

(** The spinner (line 297). *)
Definition showLoadingIndicator (s : State) : bool := loading s.

(** The end-of-dictionary message (line 310). *)
Definition showEndMessage (s : State) : bool :=
  negb (hasMore s) && (0 <? length (entries s)).

(** ** Articles and the random pick (lines 167-172, 273-277) *)

(** A non-negative integer in a template literal: its decimal digits. *)
Definition numberToString (n : nat) : string :=
  NilEmpty.string_of_uint (Nat.to_uint n).

(** The [id] attribute of the article of an entry (line 276), which is
    also the string line 170 looks up. *)
Definition elementId (entry : Translation) : string :=
  "entry-" +:+ numberToString (id entry).

(** [document.getElementById] over the rendered articles: the position
    of the first article with that [id], if any. *)
Fixpoint getElementById (articles : list Translation) (wanted : string)
  : option nat :=
  match articles with
  | [] => None
  | article :: rest =>
      if String.eqb (elementId article) wanted then Some 0
      else match getElementById rest wanted with
           | Some position => Some (S position)
           | None => None
           end
  end.

(** [getRandomDefinition] (lines 167-172).  [randomIndex] is the value of
    [Math.floor(Math.random() * filteredEntries.length)]; the result is
    the position of the article scrolled into view, [None] when nothing
    is scrolled.  Reading [.id] of a missing element throws. *)
Definition getRandomDefinition (randomIndex : nat)
    (filtered : list Translation) : Result (option nat) :=
  if length filtered =? 0 then Return None
  else match filtered !! randomIndex with
       | None => Throw "TypeError"
       | Some entry => Return (getElementById filtered (elementId entry))
       end.

(** ** Restoring the preference on mount (lines 29, 79-89) *)

(** How mounting ends as far as the preference goes: the effects ran and
    left a theme; the restore effect threw; or the stored text parsed to
    a value that is not a boolean, which [darkMode] then holds. *)
Inductive MountOutcome :=
| Mounted (t : Theme)
| EffectThrows (error : string)
| NonBoolean (v : JSValue).

(** The first render has [darkMode = false]; its effects run in source
    order: the restore effect (lines 79-84) reads the stored text and
    queues [setDarkMode], then the persistence effect (lines 86-89)
    writes the value of this render; the queued update is rendered
    last. *)
Definition mountTheme (JSON_parse : string -> Result JSValue)
    (storage : gmap string string) : MountOutcome :=
  let firstRender :=
    {| darkMode := false; localStorage := storage; writes := [];
       documentDark := false |} in
  match storage !! darkModeKey with
  | None => Mounted (persistDarkMode firstRender)
  | Some saved =>
      if String.eqb saved EmptyString then Mounted (persistDarkMode firstRender)
      else match JSON_parse saved with
           | Throw e => EffectThrows e
           | Return (JBool b) =>
               Mounted (setDarkMode (fun _ => b) (persistDarkMode firstRender))
           | Return v => NonBoolean v
           end
  end.

(** A parser for the two texts the component itself stores; it stands
    for [JSON.parse] where a concrete one is needed. *)
Definition parseBoolean (input : string) : Result JSValue :=
  if String.eqb input "true" then Return (JBool true)
  else if String.eqb input "false" then Return (JBool false)
  else Throw "SyntaxError".

(** [n] clicks on the theme button. *)
Definition toggles (n : nat) (t : Theme) : Theme :=
  Nat.iter n toggleDarkMode t.

(** The stored text and the class of the document agree with
    [darkMode]. *)
Definition themeInSync (t : Theme) : Prop :=
  localStorage t !! darkModeKey = Some (JSON_stringify_bool (darkMode t))
  /\ documentDark t = darkMode t.

(** ** From the loader to the engine *)

(** The loaded value seen at the type the component declares for
    [translations], [string[]]. *)
Definition asStringList (v : JSValue) : option (list string) :=
  match v with
  | JArray items => stringItems items
  | _ => None
  end.

(** * Properties *)

(** ** Strings *)

Section StringFacts.

Lemma append_cons (c : ascii) (t b : string) :
  String c t +:+ b = String c (t +:+ b).
Proof. reflexivity. Qed.

Lemma startsWith_spec (s t : string) :
  startsWith s t = true <-> exists b, s = t +:+ b.
Proof.
  unfold startsWith. revert s.
  induction t as [|a t IH]; intros s.
  - split; [intros _; exists s; reflexivity | intros _; destruct s; reflexivity].
  - destruct s as [|c s]; simpl.
    + split; [discriminate | intros [b Hb]; discriminate].
    + destruct (ascii_dec a c) as [->|Hne].
      * rewrite IH. split; intros [b Hb]; exists b;
          rewrite append_cons in *; congruence.
      * split; [discriminate |].
        intros [b Hb]. rewrite append_cons in Hb. congruence.
Qed.

Lemma includes_spec (s t : string) :
  includes s t = true <-> exists a b, s = a +:+ t +:+ b.
Proof.
  induction s as [|c s IH].
  - cbn [includes]. rewrite orb_false_r, startsWith_spec. split.
    + intros [b Hb]. exists EmptyString, b. exact Hb.
    + intros [a [b Hab]]. destruct a; [exists b; exact Hab | discriminate].
  - cbn [includes]. rewrite orb_true_iff, startsWith_spec, IH. split.
    + intros [[b Hb] | [a [b Hab]]].
      * exists EmptyString, b. exact Hb.
      * exists (String c a), b. rewrite append_cons. congruence.
    + intros [a [b Hab]]. destruct a as [|c' a].
      * left. exists b. exact Hab.
      * right. exists a, b. rewrite append_cons in Hab. congruence.
Qed.

Lemma trimStart_empty (s : string) :
  trimStart s = EmptyString <-> allWhiteSpace s = true.
Proof.
  induction s as [|c s IH]; simpl; [tauto|].
  destruct (isWhiteSpace c); simpl; [exact IH | split; discriminate].
Qed.

Lemma trimEnd_empty (s : string) :
  trimEnd s = EmptyString <-> allWhiteSpace s = true.
Proof.
  induction s as [|c s IH]; simpl; [tauto|].
  destruct (trimEnd s) as [|d r] eqn:E.
  - destruct (isWhiteSpace c); simpl.
    + rewrite <- IH. tauto.
    + split; discriminate.
  - split; [discriminate|]. rewrite andb_true_iff. intros [_ H].
    apply IH in H. discriminate.
Qed.

(** [trim] leaves nothing exactly when the string is white space only. *)
Lemma trim_empty (s : string) :
  trim s = EmptyString <-> allWhiteSpace s = true.
Proof.
  unfold trim. rewrite trimEnd_empty. split.
  - intros H. induction s as [|c s IH]; simpl in *; [reflexivity|].
    destruct (isWhiteSpace c) eqn:E; simpl.
    + apply IH, H.
    + simpl in H. rewrite E in H. discriminate.
  - intros H. apply trimStart_empty in H. rewrite H. reflexivity.
Qed.

Lemma trim_eqb (s : string) :
  String.eqb (trim s) EmptyString = allWhiteSpace s.
Proof.
  destruct (allWhiteSpace s) eqn:E.
  - apply trim_empty in E. rewrite E. reflexivity.
  - apply String.eqb_neq. intros H. apply trim_empty in H. congruence.
Qed.

End StringFacts.

(** ** Filter view *)

Section FilterView.

Lemma filteredEntries_blank (es : list Translation) (term : string) :
  allWhiteSpace term = true -> filteredEntries es term = es.
Proof. intros H. unfold filteredEntries. rewrite trim_eqb, H. reflexivity. Qed.

Lemma filteredEntries_filter (es : list Translation) (term : string) :
  allWhiteSpace term = false ->
  filteredEntries es term = List.filter (matches term) es.
Proof. intros H. unfold filteredEntries. rewrite trim_eqb, H. reflexivity. Qed.

Lemma matches_spec (term : string) (e : Translation) :
  matches term e = true <->
  exists a b, toLowerCase (text e) = a +:+ toLowerCase term +:+ b.
Proof. apply includes_spec. Qed.

Lemma filteredEntries_In (es : list Translation) (term : string) (e : Translation) :
  allWhiteSpace term = false ->
  In e (filteredEntries es term) <-> In e es /\ matches term e = true.
Proof.
  intros H. rewrite filteredEntries_filter by exact H. apply List.filter_In.
Qed.

(** Which fallback sentence mentions the term of the specification's
    example. *)
Lemma quantum_fallback (k : nat) :
  k < 10 ->
  includes (toLowerCase (nth k FALLBACK_TRANSLATIONS EmptyString))
           (toLowerCase "quantum")
  = (k =? 1).
Proof.
  intros Hk.
  do 10 (destruct k as [|k]; [vm_compute; reflexivity|]). lia.
Qed.

Lemma quantum_entryAt (i : nat) :
  matches "quantum" (entryAt FALLBACK_TRANSLATIONS i)
  = (id (entryAt FALLBACK_TRANSLATIONS i) mod 10 =? 1).
Proof.
  unfold matches. cbn [entryAt text id].
  change (length FALLBACK_TRANSLATIONS) with 10.
  apply quantum_fallback. apply Nat.mod_upper_bound. discriminate.
Qed.

End FilterView.


(** ** Pagination engine: calls made by the latest render *)

Section Pagination.

Lemma forLoop_spec (n startIndex i : nat) (ts : list string)
    (acc : list Translation) :
  forLoop n startIndex i ts acc
  = acc ++ List.map (entryAt ts) (seq (startIndex + i) n).
Proof.
  revert i acc. induction n as [|n IH]; intros i acc; simpl.
  - rewrite app_nil_r. reflexivity.
  - rewrite IH, <- app_assoc. simpl.
    replace (startIndex + S i) with (S (startIndex + i)) by lia.
    reflexivity.
Qed.

Lemma newEntriesOf_spec (c : Closure) :
  newEntriesOf c
  = List.map (entryAt (cl_translations c))
      (seq (cl_currentPage c * entriesPerPage) entriesPerPage).
Proof.
  unfold newEntriesOf. rewrite forLoop_spec, Nat.add_0_r. reflexivity.
Qed.

Lemma newEntriesOf_length (c : Closure) :
  length (newEntriesOf c) = entriesPerPage.
Proof. rewrite newEntriesOf_spec, length_map, length_seq. reflexivity. Qed.

Lemma invariant_loaded (ts : list string) : invariant ts (loaded ts).
Proof.
  unfold invariant, loaded, setTranslations, mount; simpl.
  repeat split; try (left; split; reflexivity).
  destruct ts as [|t ts]; [left; split; reflexivity | right; simpl; lia].
Qed.

Lemma invariant_loadMoreEntries (ts : list string) (s : State) :
  invariant ts s -> invariant ts (loadMoreEntries s).
Proof.
  intros Hinv. unfold loadMoreEntries, loadMoreEntriesFrom.
  destruct (loading s) eqn:Hl; [exact Hinv|].
  destruct (hasMore s) eqn:Hh; [|exact Hinv].
  destruct (length (translations s) =? 0) eqn:Hn; [exact Hinv|]. simpl.
  destruct Hinv as (Hts & Hes & Htm & Hcap).
  apply Nat.eqb_neq in Hn.
  unfold invariant; simpl. rewrite Hh in *.
  repeat split; try assumption.
  right. destruct Htm as [[Ht _] | (_ & Hl' & _)]; [|congruence].
  rewrite Ht. repeat split.
  intros E. apply Hn. rewrite Hts, E. reflexivity.
Qed.

Lemma invariant_fireTimer (ts : list string) (s : State) :
  invariant ts s -> invariant ts (fireTimer s).
Proof.
  intros Hinv. unfold fireTimer.
  destruct Hinv as (Hts & Hes & Htm & Hcap).
  destruct Htm as [[Ht Hl] | (Ht & Hl & Hh & Hne)].
  - rewrite Ht. unfold invariant. rewrite Ht, Hl. tauto.
  - rewrite Ht. rewrite Hh in Hcap.
    assert (Hlen : length (entries s) = currentPage s * entriesPerPage)
      by (rewrite Hes, length_map, length_seq; reflexivity).
    unfold invariant, timerCallback; simpl.
    split; [exact Hts|]. split; [|split].
    + rewrite newEntriesOf_spec. cbn [capture cl_translations cl_currentPage].
      rewrite Hts. rewrite Hes at 1. rewrite <- map_app, <- seq_app.
      f_equal. f_equal. unfold entriesPerPage. lia.
    + left. split; reflexivity.
    + assert (Hpos : 0 < length ts) by (destruct ts; [congruence | simpl; lia]).
      rewrite Hlen, Hts, Hh. unfold entriesPerPage in *.
      destruct (length ts * 20 <=? currentPage s * 10 + 10) eqn:Hle.
      * apply Nat.leb_le in Hle. split; [exact Hne | lia].
      * apply Nat.leb_gt in Hle. right. lia.
Qed.

(** Consequences of the invariant. *)

Lemma invariant_length (ts : list string) (s : State) :
  invariant ts s -> length (entries s) = currentPage s * entriesPerPage.
Proof.
  intros (_ & Hes & _). rewrite Hes, length_map, length_seq. reflexivity.
Qed.

Lemma invariant_ids (ts : list string) (s : State) :
  invariant ts s -> List.map id (entries s) = seq 0 (length (entries s)).
Proof.
  intros Hinv. rewrite (invariant_length ts s Hinv).
  destruct Hinv as (_ & Hes & _). rewrite Hes at 1.
  rewrite List.map_map. apply List.map_id.
Qed.

Lemma invariant_pending (ts : list string) (s : State) :
  invariant ts s -> timers s <> [] ->
  timers s = [capture s] /\ loading s = true /\ hasMore s = true /\ ts <> [].
Proof.
  intros (_ & _ & [[Ht _] | H] & _) Hne; [congruence | exact H].
Qed.

Lemma cyclic_text (ts : list string) (i : nat) :
  ts <> [] -> ts !! (i mod length ts) = Some (text (entryAt ts i)).
Proof.
  intros Hne. simpl.
  assert (Hlt : i mod length ts < length ts).
  { apply Nat.mod_upper_bound. destruct ts; [congruence | discriminate]. }
  destruct (lookup_lt_is_Some_2 ts _ Hlt) as [t Ht].
  rewrite Ht. f_equal. symmetry. apply nth_lookup_Some with (d := EmptyString).
  exact Ht.
Qed.

(** A pending callback, once it runs, appends the next ten entries and
    counts one page. *)
Lemma fireTimer_batch (ts : list string) (s : State) :
  invariant ts s -> timers s <> [] ->
  entries (fireTimer s)
  = entries s ++ List.map (entryAt ts) (seq (length (entries s)) entriesPerPage)
  /\ currentPage (fireTimer s) = currentPage s + 1
  /\ loading (fireTimer s) = false
  /\ timers (fireTimer s) = [].
Proof.
  intros Hinv Hne.
  destruct (invariant_pending ts s Hinv Hne) as (Ht & _).
  pose proof (invariant_length ts s Hinv) as Hlen.
  destruct Hinv as (Hts & _).
  unfold fireTimer. rewrite Ht. unfold timerCallback; simpl.
  rewrite newEntriesOf_spec. cbn [capture cl_translations cl_currentPage].
  rewrite Hts, Hlen. repeat split.
Qed.

Lemma loadMoreEntries_entries (s : State) :
  entries (loadMoreEntries s) = entries s.
Proof.
  unfold loadMoreEntries, loadMoreEntriesFrom.
  destruct (loading s || negb (hasMore s) || (length (translations s) =? 0));
    reflexivity.
Qed.

Lemma fireTimer_idle (s : State) : timers s = [] -> fireTimer s = s.
Proof. intros H. unfold fireTimer. rewrite H. reflexivity. Qed.

(** The guard, case by case. *)
Lemma loadMoreEntries_blocked (s : State) :
  loading s = true \/ hasMore s = false \/ translations s = [] ->
  loadMoreEntries s = s.
Proof.
  intros H. unfold loadMoreEntries, loadMoreEntriesFrom.
  destruct H as [-> | [-> | ->]]; simpl; [reflexivity | |].
  - rewrite orb_true_r. reflexivity.
  - rewrite orb_true_r. reflexivity.
Qed.

Lemma loadMoreEntries_accepted (s : State) :
  loading s = false -> hasMore s = true -> translations s <> [] ->
  loadMoreEntries s
  = {| entries := entries s; currentPage := currentPage s; loading := true;
       hasMore := hasMore s; translations := translations s;
       timers := timers s ++ [capture s] |}.
Proof.
  intros Hl Hh Hne. unfold loadMoreEntries, loadMoreEntriesFrom. rewrite Hl, Hh.
  destruct (translations s); [congruence | reflexivity].
Qed.

Lemma loadMoreEntries_idempotent (s : State) :
  loadMoreEntries (loadMoreEntries s) = loadMoreEntries s.
Proof.
  assert (Hstuck : loadMoreEntries s = s ->
                   loadMoreEntries (loadMoreEntries s) = loadMoreEntries s)
    by (intros E; rewrite !E; reflexivity).
  destruct (loading s) eqn:Hl.
  { apply Hstuck, loadMoreEntries_blocked. auto. }
  destruct (hasMore s) eqn:Hh.
  2:{ apply Hstuck, loadMoreEntries_blocked. auto. }
  destruct (translations s) as [|t ts] eqn:Hts.
  { apply Hstuck, loadMoreEntries_blocked. auto. }
  rewrite (loadMoreEntries_accepted s) by congruence.
  apply loadMoreEntries_blocked. left. reflexivity.
Qed.

End Pagination.

(** ** Pagination engine: every run of the page *)

Section EveryRun.

Lemma loadMoreEntriesFrom_cases (r s : State) :
  loadMoreEntriesFrom r s = s \/
  (translations r <> [] /\
   loadMoreEntriesFrom r s
   = {| entries := entries s; currentPage := currentPage s; loading := true;
        hasMore := hasMore s; translations := translations s;
        timers := timers s ++ [capture r] |}).
Proof.
  unfold loadMoreEntriesFrom.
  destruct (loading r || negb (hasMore r)); simpl; [left; reflexivity|].
  destruct (translations r); simpl; [left; reflexivity|].
  right. split; [discriminate | reflexivity].
Qed.

Lemma initialLoadEffectFrom_cases (r s : State) :
  initialLoadEffectFrom r s = s \/
  initialLoadEffectFrom r s = loadMoreEntriesFrom r s.
Proof.
  unfold initialLoadEffectFrom.
  destruct ((0 <? length (translations r)) && (length (entries r) =? 0));
    [right | left]; reflexivity.
Qed.

Lemma observerCallbackFrom_cases (r : State) (b : bool) (others : list bool)
    (s : State) :
  observerCallbackFrom r b others s = s \/
  observerCallbackFrom r b others s = loadMoreEntriesFrom r s.
Proof.
  unfold observerCallbackFrom.
  destruct (b && hasMore r && negb (loading r)); [right | left]; reflexivity.
Qed.

Lemma consistent_pageLoaded (ts : list string) : consistent ts (pageLoaded ts).
Proof.
  unfold consistent; simpl.
  repeat split; auto; try constructor; discriminate.
Qed.

Lemma consistent_commit (ts : list string) (p : Page) :
  consistent ts p -> consistent ts {| rendered := live p; live := live p |}.
Proof.
  intros (Hts & _ & _ & _ & Hlen & Hent & Htm & Hhm & Hemp).
  unfold consistent; simpl.
  split; [exact Hts|]. split; [left; exact Hts|].
  repeat split; auto; apply Hhm; assumption.
Qed.

Lemma consistent_call (ts : list string) (p : Page) (r : State) :
  consistent ts p -> r = rendered p \/ r = live p ->
  consistent ts
    {| rendered := rendered p; live := loadMoreEntriesFrom r (live p) |}.
Proof.
  intros Hc Hr.
  destruct (loadMoreEntriesFrom_cases r (live p)) as [-> | [Hne ->]].
  { exact Hc. }
  destruct Hc as (Hts & Hrt & Hpg & Hrl & Hlen & Hent & Htm & Hhm & Hemp).
  unfold consistent; simpl.
  split; [exact Hts|]. split; [exact Hrt|]. split; [exact Hpg|].
  split; [exact Hrl|]. split; [exact Hlen|]. split; [exact Hent|].
  split; [|split; [exact Hhm | exact Hemp]].
  apply Forall_app. split; [exact Htm|].
  constructor; [|constructor]. simpl.
  assert (Hrts : translations r = ts).
  { destruct Hr as [-> | ->]; [|exact Hts].
    destruct Hrt as [E | E]; [exact E | congruence]. }
  split; [exact Hrts|]. split; [congruence|].
  destruct Hr as [-> | ->]; split; auto.
Qed.

Lemma consistent_fire (ts : list string) (p : Page) :
  consistent ts p ->
  consistent ts {| rendered := rendered p; live := fireTimer (live p) |}.
Proof.
  intros Hc. unfold fireTimer.
  destruct (timers (live p)) as [|c rest] eqn:Ht.
  { destruct p as [r s]. exact Hc. }
  destruct Hc as (Hts & Hrt & Hpg & Hrl & Hlen & Hent & Htm & Hhm & Hemp).
  rewrite Ht in Htm. apply Forall_cons in Htm.
  destruct Htm as [(Hct & Hne & Hcp & Hcl) Hrest].
  pose proof (newEntriesOf_length c) as Hnew. unfold entriesPerPage in *.
  unfold consistent, timerCallback.
  cbn [live rendered entries currentPage loading hasMore translations timers].
  rewrite !length_app, Hnew. unfold entriesPerPage.
  split; [exact Hts|]. split; [exact Hrt|]. split; [lia|]. split; [lia|].
  split; [lia|]. split; [|split; [|split]].
  - apply Forall_app. split.
    + eapply Forall_impl; [exact Hent|]. intros e [He Hid]. split; [exact He | lia].
    + rewrite newEntriesOf_spec, Hct. apply List.Forall_forall. intros e He.
      apply List.in_map_iff in He. destruct He as (i & <- & Hi).
      apply in_seq in Hi. unfold entriesPerPage in Hi. simpl. split; [reflexivity | lia].
  - eapply Forall_impl; [exact Hrest|].
    intros c' (H1 & H2 & H3 & H4). repeat split; auto; lia.
  - rewrite Hct.
    destruct (length ts * 20 <=? cl_entriesLength c + 10) eqn:Hle.
    + intros _. apply Nat.leb_le in Hle. split; [exact Hne | lia].
    + intros Hh. destruct (Hhm Hh) as [H1 H2]. split; [exact H1 | lia].
  - intros E. congruence.
Qed.

Lemma consistent_stepUI (ts : list string) (p : Page) (ev : UIEvent) :
  consistent ts p -> consistent ts (stepUI p ev).
Proof.
  intros Hc. destruct ev as [|b others|]; simpl.
  - pose proof (consistent_commit ts p Hc) as Hc'.
    destruct (initialLoadEffectFrom_cases (live p) (live p)) as [-> | ->];
      [exact Hc'|].
    apply (consistent_call ts _ (live p) Hc'). right. reflexivity.
  - destruct (observerCallbackFrom_cases (rendered p) b others (live p))
      as [-> | ->].
    + destruct p; exact Hc.
    + apply (consistent_call ts p _ Hc). left. reflexivity.
  - apply consistent_fire, Hc.
Qed.

Lemma consistent_runUI (ts : list string) (evs : list UIEvent) (p : Page) :
  consistent ts p -> consistent ts (runUI evs p).
Proof.
  revert p. induction evs as [|ev evs IH]; intros p Hc; [exact Hc|].
  apply IH, consistent_stepUI, Hc.
Qed.

Lemma reachable_consistent (ts : list string) (s : State) :
  reachable ts s -> exists p, consistent ts p /\ live p = s.
Proof.
  intros [evs ->]. eexists. split; [|reflexivity].
  apply consistent_runUI, consistent_pageLoaded.
Qed.

Lemma runUI_app (evs1 evs2 : list UIEvent) (p : Page) :
  runUI (evs1 ++ evs2) p = runUI evs2 (runUI evs1 p).
Proof. apply fold_left_app. Qed.

End EveryRun.

(** ** Calls through a function that is no longer up to date *)

Section StaleCalls.

(** C1, evaluated where it fails: the observer installed by the commit of
    the list is notified before the render of loading is committed, so
    both the effect's call and the observer's pass the guard and both
    callbacks start at id 0; the 11th entry appended has id 0 and the
    first sentence, not id 10. *)
Theorem eleventh_entry_after_double_load :
  let s := live (runUI doubleLoadAtMount (pageLoaded FALLBACK_TRANSLATIONS)) in
  length (entries s) = 20
  /\ entries s !! 10
     = Some {| id := 0;
               text := "Zephyrian consciousness seeks temporal equilibrium." |}
  /\ entries s !! 10 <> Some (entryAt FALLBACK_TRANSLATIONS 10).
Proof.
  intros s. split; [reflexivity|]. split; [reflexivity|].
  vm_compute. discriminate.
Qed.

(** C2, evaluated where it fails: after the first page, two notifications
    reach the installed observer with no commit in between; although the
    first call has set loading, the second reads the same render, passes
    the guard too, and two batches are appended, both with ids 10..19. *)
Theorem two_notifications_two_batches :
  let p := runUI firstPage (pageLoaded FALLBACK_TRANSLATIONS) in
  let p1 := stepUI p (SentinelObserved true []) in
  let p2 := stepUI p1 (SentinelObserved true []) in
  let s := live (runUI [TimerRuns; TimerRuns] p2) in
  rendered p = live p
  /\ loading (live p1) = true
  /\ length (timers (live p1)) = 1
  /\ length (timers (live p2)) = 2
  /\ List.map id (entries s) = seq 0 10 ++ seq 10 10 ++ seq 10 10.
Proof. repeat split; reflexivity. Qed.

(** C3, evaluated where it fails: with a one-sentence list the double
    load at mount brings the log to 20 = 20 * len entries while hasMore
    is still true, because the second callback compares the log length
    of its render; the next batch brings the log to 30 entries, and only
    then is hasMore cleared. *)
Theorem cap_missed_after_double_load :
  let ts := ["I am Groot"] in
  let p1 := runUI doubleLoadAtMount (pageLoaded ts) in
  let p2 := runUI [Commit; SentinelObserved true []; Commit; TimerRuns; Commit]
              p1 in
  length (entries (live p1)) = 20 * length ts
  /\ hasMore (live p1) = true
  /\ length (entries (live p2)) = 30
  /\ hasMore (live p2) = false.
Proof. repeat split; reflexivity. Qed.

(** C7, evaluated where it fails: after the double load at mount the ids
    in the log are 0..9 followed by 0..9 again: neither increasing nor
    free of duplicates. *)
Theorem ids_repeat_after_double_load :
  let s := live (runUI doubleLoadAtMount (pageLoaded FALLBACK_TRANSLATIONS)) in
  List.map id (entries s) = seq 0 10 ++ seq 0 10
  /\ ~ NoDup (List.map id (entries s)).
Proof.
  intros s.
  assert (H : List.map id (entries s) = seq 0 10 ++ seq 0 10) by reflexivity.
  split; [exact H|]. rewrite H. intros Hnd.
  apply NoDup_app in Hnd. destruct Hnd as (_ & Hdisjoint & _).
  apply (Hdisjoint 0); apply list_elem_of_In; simpl; auto.
Qed.

(** C10, evaluated where it fails: after two notifications on one render
    and the first of the two timers, the log length is still 10 times
    the page counter, but the callback still pending starts at id 10
    while the log already holds 20 entries, so each of its ids is in the
    log already. *)
Theorem pending_batch_collides :
  let s := live (runUI (firstPage ++ doubleNotification ++ [TimerRuns])
                   (pageLoaded FALLBACK_TRANSLATIONS)) in
  length (entries s) = 10 * currentPage s
  /\ List.map id (entries s) = seq 0 20
  /\ exists c,
       timers s = [c]
       /\ cl_currentPage c * entriesPerPage = 10
       /\ List.map id (newEntriesOf c) = seq 10 10.
Proof.
  intros s. split; [reflexivity|]. split; [reflexivity|].
  eexists. repeat split; reflexivity.
Qed.

End StaleCalls.

(** ** Filter view over the paginated log *)

Section FilteredLog.

Lemma quantum_consistent (p : Page) :
  consistent FALLBACK_TRANSLATIONS p ->
  filteredEntries (entries (live p)) "quantum"
  = List.filter (fun e => id e mod 10 =? 1) (entries (live p)).
Proof.
  intros (_ & _ & _ & _ & _ & Hent & _).
  rewrite filteredEntries_filter by reflexivity.
  apply List.filter_ext_in. intros e He.
  rewrite List.Forall_forall in Hent. destruct (Hent e He) as [-> _].
  apply quantum_entryAt.
Qed.

(** C5, as the code has it: for every entry log and every search term
    that is not white space only, the filtered view is exactly the
    entries whose lower-cased text contains the lower-cased term, in log
    order; with the fallback data and the term quantum it is exactly the
    entries of the quantum squirrel sentence, one per cyclic repetition
    (the ids congruent to 1 modulo 10). *)
Theorem filteredEntries_nonblank_term :
  (forall (es : list Translation) (term : string),
      allWhiteSpace term = false ->
      filteredEntries es term
      = List.filter
          (fun e => includes (toLowerCase (text e)) (toLowerCase term)) es
      /\ forall e, In e (filteredEntries es term) <->
                   In e es /\
                   includes (toLowerCase (text e)) (toLowerCase term) = true)
  /\ (forall s : State,
        reachable FALLBACK_TRANSLATIONS s ->
        filteredEntries (entries s) "quantum"
        = List.filter (fun e => id e mod 10 =? 1) (entries s)
        /\ forall e, In e (filteredEntries (entries s) "quantum") ->
                     text e
                     = "The quantum squirrel has appropriated my sustenance cube.").
Proof.
  split.
  - intros es term H. split.
    + apply (filteredEntries_filter es term H).
    + intros e. apply (filteredEntries_In es term e H).
  - intros s Hreach.
    destruct (reachable_consistent _ s Hreach) as (p & Hc & <-).
    split; [apply (quantum_consistent p Hc)|].
    intros e He. rewrite (quantum_consistent p Hc) in He.
    apply List.filter_In in He. destruct He as [He Hmod].
    destruct Hc as (_ & _ & _ & _ & _ & Hent & _).
    rewrite List.Forall_forall in Hent. destruct (Hent e He) as [Heq _].
    rewrite Heq. cbn [entryAt text id].
    change (length FALLBACK_TRANSLATIONS) with 10.
    apply Nat.eqb_eq in Hmod. rewrite Hmod. reflexivity.
Qed.

Lemma filteredEntries_nonblank_term_witness :
  let s := live (runUI (scrollSession 1) (pageLoaded FALLBACK_TRANSLATIONS)) in
  allWhiteSpace "quantum" = false /\
  reachable FALLBACK_TRANSLATIONS s /\
  filteredEntries (entries s) "quantum"
  = List.filter (fun e => id e mod 10 =? 1) (entries s) /\
  List.map id (filteredEntries (entries s) "quantum") = [1; 11].
Proof.
  intros s.
  assert (Hreach : reachable FALLBACK_TRANSLATIONS s) by (eexists; reflexivity).
  split; [reflexivity|]. split; [exact Hreach|].
  destruct filteredEntries_nonblank_term as [_ Hq].
  destruct (Hq s Hreach) as [Hfilter _].
  split; [exact Hfilter|]. rewrite Hfilter. vm_compute. reflexivity.
Defined.

(** C5, as stated, fails: a term of white space only is not empty, yet
    the view keeps entries whose text does not contain it. *)
Lemma filteredEntries_blank_term_counterexample :
  let s := live (runUI firstPage (pageLoaded ["Groot"])) in
  " " <> EmptyString /\
  entries s <> [] /\
  filteredEntries (entries s) " " = entries s /\
  forall e, In e (filteredEntries (entries s) " ") ->
            includes (toLowerCase (text e)) (toLowerCase " ") = false.
Proof.
  intros s. split; [discriminate|]. split; [discriminate|].
  split; [reflexivity|].
  intros e He. vm_compute in He.
  repeat (destruct He as [<- | He]; [vm_compute; reflexivity|]).
  destruct He.
Qed.

(** C6: with the empty search term the filtered view is the entry log
    itself, same entries in the same order. *)
Theorem filteredEntries_empty_term (es : list Translation) :
  filteredEntries es EmptyString = es.
Proof. reflexivity. Qed.

(** C9: a term that is not empty but white space only yields the whole
    entry log (trimming serves the emptiness test only); any other term
    is matched raw, untrimmed: an entry is kept exactly when its
    lower-cased text contains the whole lower-cased term, leading and
    trailing spaces included. *)
Theorem filteredEntries_trims_for_emptiness_only
    (es : list Translation) (term : string) :
  (term <> EmptyString -> allWhiteSpace term = true ->
   filteredEntries es term = es)
  /\ (allWhiteSpace term = false ->
      filteredEntries es term
      = List.filter
          (fun e => includes (toLowerCase (text e)) (toLowerCase term)) es
      /\ forall e, In e (filteredEntries es term) <->
                   In e es /\
                   exists a b,
                     toLowerCase (text e) = a +:+ toLowerCase term +:+ b).
Proof.
  split.
  - intros _ H. apply (filteredEntries_blank es term H).
  - intros H. split; [apply (filteredEntries_filter es term H)|].
    intros e. rewrite (filteredEntries_In es term e H), matches_spec.
    reflexivity.
Qed.

Lemma filteredEntries_trims_for_emptiness_only_witness :
  let es := List.map (entryAt FALLBACK_TRANSLATIONS) (seq 0 10) in
  filteredEntries es "   " = es /\
  List.map id (filteredEntries es "cube.") = [1] /\
  filteredEntries es "cube. " = [] /\
  forall e, In e (filteredEntries es " cube.") <->
            In e es /\
            exists a b,
              toLowerCase (text e) = a +:+ toLowerCase " cube." +:+ b.
Proof.
  intros es.
  destruct (filteredEntries_trims_for_emptiness_only es "   ") as [Hblank _].
  destruct (filteredEntries_trims_for_emptiness_only es " cube.") as [_ Hraw].
  split; [apply Hblank; [discriminate | reflexivity]|].
  split; [vm_compute; reflexivity|]. split; [vm_compute; reflexivity|].
  apply Hraw. reflexivity.
Defined.

End FilteredLog.

(** ** Dark-mode preference *)

Section DarkMode.

Lemma stringify_negb (b : bool) :
  JSON_stringify_bool (negb b) <> JSON_stringify_bool b.
Proof. destruct b; discriminate. Qed.

Lemma toggleDarkMode_unfold (t : Theme) :
  toggleDarkMode t
  = persistDarkMode
      {| darkMode := negb (darkMode t); localStorage := localStorage t;
         writes := writes t; documentDark := documentDark t |}.
Proof.
  unfold toggleDarkMode, setDarkMode. destruct (darkMode t); reflexivity.
Qed.

(** C8: toggling the theme twice returns the preference to its original
    value; the two toggles persist exactly two writes, the first
    differing from the original value and the second restoring it. *)
Theorem toggleDarkMode_twice (t : Theme) :
  let original := JSON_stringify_bool (darkMode t) in
  let flipped := JSON_stringify_bool (negb (darkMode t)) in
  let t2 := toggleDarkMode (toggleDarkMode t) in
  darkMode t2 = darkMode t
  /\ writes t2 = writes t ++ [(darkModeKey, flipped); (darkModeKey, original)]
  /\ flipped <> original
  /\ writes (toggleDarkMode t) = writes t ++ [(darkModeKey, flipped)]
  /\ localStorage (toggleDarkMode t) !! darkModeKey = Some flipped
  /\ localStorage t2 !! darkModeKey = Some original
  /\ documentDark t2 = darkMode t.
Proof.
  intros original flipped t2. subst original flipped t2.
  rewrite !toggleDarkMode_unfold. unfold persistDarkMode; simpl.
  rewrite negb_involutive, <- app_assoc. simpl.
  repeat split.
  - apply stringify_negb.
  - apply lookup_insert_eq.
  - apply lookup_insert_eq.
Qed.

End DarkMode.

(** ** Translation loader *)

Section Loader.

Variable JSON_parse : string -> Result JSValue.

#[local] Arguments truthy : simpl never.
#[local] Arguments strictEqualsZero : simpl never.
#[local] Arguments getProperty : simpl never.

(** When the [try] block completes, the response was fine, the body
    parsed, and the value it returns is the [grootTranslations] field,
    truthy and with a [length] other than 0. *)
Lemma tryLoadTranslations_Return (r : FetchOutcome) (v : JSValue) :
  tryLoadTranslations JSON_parse r = Return v <->
  exists text data len,
    r = FetchResponse true (Some text)
    /\ looksLikeHtml text = false
    /\ JSON_parse text = Return data
    /\ getProperty data "grootTranslations" = Return (Some v)
    /\ truthy (Some v) = true
    /\ getProperty v "length" = Return len
    /\ strictEqualsZero len = false.
Proof.
  split.
  - destruct r as [|[|] [text|]]; simpl; try discriminate.
    destruct (looksLikeHtml text) eqn:Hhtml; [discriminate|].
    destruct (JSON_parse text) as [data|e] eqn:Hparse; simpl; [|discriminate].
    destruct (getProperty data "grootTranslations") as [[w|]|e] eqn:Hfield;
      simpl; try discriminate.
    destruct (truthy (Some w)) eqn:Htruthy; simpl; [|vm_compute; discriminate].
    destruct (getProperty w "length") as [len|e] eqn:Hlen; simpl; [|discriminate].
    destruct (strictEqualsZero len) eqn:Hzero; [discriminate|].
    intros [= <-]. exists text, data, len. repeat split; assumption.
  - intros (text & data & len & -> & Hhtml & Hparse & Hfield & Htruthy & Hlen & Hzero).
    simpl. rewrite Hhtml, Hparse. simpl. rewrite Hfield. simpl.
    rewrite Htruthy, Hlen. simpl. rewrite Hzero. reflexivity.
Qed.

Lemma loadTranslations_cases (r : FetchOutcome) :
  loadTranslations JSON_parse r = fallbackValue \/
  tryLoadTranslations JSON_parse r = Return (loadTranslations JSON_parse r).
Proof.
  unfold loadTranslations.
  destruct (tryLoadTranslations JSON_parse r); [right | left]; reflexivity.
Qed.

Lemma loadTranslations_nonempty (r : FetchOutcome) :
  loadTranslations JSON_parse r <> JArray [].
Proof.
  destruct (loadTranslations_cases r) as [E | E].
  - rewrite E. discriminate.
  - apply tryLoadTranslations_Return in E.
    destruct E as (_ & _ & len & _ & _ & _ & _ & _ & Hlen & Hzero).
    intros E. rewrite E in Hlen. vm_compute in Hlen.
    injection Hlen as <-. discriminate.
Qed.

Lemma stringItems_map (items : list JSValue) (l : list string) :
  stringItems items = Some l -> items = List.map JString l.
Proof.
  revert l. induction items as [|[| | |s| |] rest IH]; intros l; simpl;
    try discriminate.
  - intros [= <-]. reflexivity.
  - destruct (stringItems rest) as [l'|]; [|discriminate].
    intros [= <-]. simpl. f_equal. apply IH. reflexivity.
Qed.

Lemma load_unfold (text : string) :
  loadTranslations JSON_parse (FetchResponse true (Some text))
  = if looksLikeHtml text then fallbackValue
    else match JSON_parse text with
         | Throw _ => fallbackValue
         | Return data =>
             match getProperty data "grootTranslations" with
             | Throw _ => fallbackValue
             | Return field =>
                 let loadedTranslations :=
                   match field with
                   | Some v => if truthy field then v else JArray []
                   | None => JArray []
                   end in
                 match getProperty loadedTranslations "length" with
                 | Throw _ => fallbackValue
                 | Return len =>
                     if strictEqualsZero len then fallbackValue
                     else loadedTranslations
                 end
             end
         end.
Proof.
  unfold loadTranslations; simpl.
  destruct (looksLikeHtml text); [reflexivity|].
  destruct (JSON_parse text) as [data|]; simpl; [|reflexivity].
  destruct (getProperty data "grootTranslations") as [field|]; simpl;
    [|reflexivity].
  destruct (getProperty _ "length") as [len|]; simpl; [|reflexivity].
  destruct (strictEqualsZero len); reflexivity.
Qed.

Lemma expectedStructure_field (data : JSValue) (l : list string) :
  expectedStructure data = Some l ->
  getProperty data "grootTranslations"
  = Return (Some (JArray (List.map JString l))).
Proof.
  destruct data as [| | | | |fields]; simpl; try discriminate.
  unfold getProperty.
  destruct (ownProperty fields "grootTranslations") as [[| | | |items|]|];
    try discriminate.
  intros H. apply stringItems_map in H. rewrite H. reflexivity.
Qed.

(** C4, as the code has it: the loader hands over the fallback list of
    exactly 10 strings whenever the retrieval fails, the body is not
    JSON, the parsed value is null or has no truthy grootTranslations
    field, or the parsed list is empty; a well-formed non-empty list is
    handed over as it is; whatever the outcome the loader completes with
    a value, and that value is never an empty list.  The shape of a
    truthy field is not checked. *)
Theorem loadTranslations_falls_back (r : FetchOutcome) :
  (r = FetchRejected \/ (exists body, r = FetchResponse false body) \/
   r = FetchResponse true None ->
   loadTranslations JSON_parse r = fallbackValue)
  /\ (forall text, r = FetchResponse true (Some text) ->
        (looksLikeHtml text = true \/ (exists e, JSON_parse text = Throw e) ->
         loadTranslations JSON_parse r = fallbackValue)
        /\ (forall data, JSON_parse text = Return data ->
              (data = JNull \/
               getProperty data "grootTranslations" = Return None \/
               (exists v, getProperty data "grootTranslations" = Return (Some v)
                          /\ truthy (Some v) = false) ->
               loadTranslations JSON_parse r = fallbackValue)
              /\ (expectedStructure data = Some [] ->
                  loadTranslations JSON_parse r = fallbackValue)
              /\ (forall l, expectedStructure data = Some l -> l <> [] ->
                    looksLikeHtml text = false ->
                    loadTranslations JSON_parse r = JArray (List.map JString l))))
  /\ ((exists v, tryLoadTranslations JSON_parse r = Return v
                 /\ loadTranslations JSON_parse r = v)
      \/ (exists e, tryLoadTranslations JSON_parse r = Throw e
                    /\ loadTranslations JSON_parse r = fallbackValue))
  /\ loadTranslations JSON_parse r <> JArray []
  /\ fallbackValue = JArray (List.map JString FALLBACK_TRANSLATIONS)
  /\ length FALLBACK_TRANSLATIONS = 10.
Proof.
  split; [|split; [|split; [|split; [|split]]]].
  - intros [-> | [[body ->] | ->]]; reflexivity.
  - intros text ->. rewrite load_unfold. split.
    + intros [-> | [e ->]]; [reflexivity|].
      destruct (looksLikeHtml text); reflexivity.
    + intros data ->. destruct (looksLikeHtml text) eqn:Hhtml.
      { repeat split; try reflexivity. intros l _ _ [=]. }
      split; [|split].
      * intros [-> | [-> | (v & -> & Hv)]]; [reflexivity | reflexivity |].
        rewrite Hv. reflexivity.
      * intros H. rewrite (expectedStructure_field data [] H). reflexivity.
      * intros l H Hne _. rewrite (expectedStructure_field data l H).
        destruct l as [|x l]; [congruence | reflexivity].
  - unfold loadTranslations.
    destruct (tryLoadTranslations JSON_parse r) as [v|e];
      [left; exists v | right; exists e]; split; reflexivity.
  - apply loadTranslations_nonempty.
  - reflexivity.
  - reflexivity.
Qed.

End Loader.

Section LoaderExamples.

Lemma loadTranslations_falls_back_witness :
  let JSON_parse := parseOnly listPayload listPayloadData in
  loadTranslations JSON_parse FetchRejected = fallbackValue /\
  loadTranslations JSON_parse (FetchResponse true (Some "<html></html>"))
  = fallbackValue /\
  loadTranslations JSON_parse (FetchResponse true (Some listPayload))
  = JArray [JString "Groot"].
Proof.
  intros JSON_parse.
  destruct (loadTranslations_falls_back JSON_parse FetchRejected)
    as (Hretrieval & _).
  destruct (loadTranslations_falls_back JSON_parse
              (FetchResponse true (Some "<html></html>")))
    as (_ & Hhtml & _).
  destruct (loadTranslations_falls_back JSON_parse
              (FetchResponse true (Some listPayload)))
    as (_ & Hlist & _).
  split; [apply Hretrieval; left; reflexivity|]. split.
  - destruct (Hhtml "<html></html>" eq_refl) as [Hnotjson _].
    apply Hnotjson. left. reflexivity.
  - destruct (Hlist listPayload eq_refl) as [_ Hparsed].
    destruct (Hparsed listPayloadData eq_refl) as (_ & _ & Hgood).
    apply (Hgood ["Groot"] eq_refl); [discriminate | reflexivity].
Defined.

(** C4, as stated, fails: a payload that parses but does not have the
    expected structure (its field holds a number) is a failure condition
    of the specification, yet the loader hands the number over instead
    of the fallback list. *)
Lemma loadTranslations_unvalidated_counterexample :
  let JSON_parse := parseOnly numberPayload numberPayloadData in
  let response := FetchResponse true (Some numberPayload) in
  specLoadFailure JSON_parse response /\
  loadTranslations JSON_parse response = JNumber 42 /\
  loadTranslations JSON_parse response <> fallbackValue.
Proof.
  intros JSON_parse response. split; [|split].
  - right. vm_compute. left. reflexivity.
  - vm_compute. reflexivity.
  - vm_compute. discriminate.
Qed.

End LoaderExamples.

(** * Further properties of the component *)

(** ** The filtered view as a sub-list *)

Section FilterOrder.

Lemma filter_sublist {A : Type} (p : A -> bool) (l : list A) :
  List.filter p l `sublist_of` l.
Proof.
  induction l as [|x l IH]; simpl; [constructor|].
  destruct (p x); [apply sublist_skip | apply sublist_cons]; exact IH.
Qed.

Lemma filter_sublist_implied {A : Type} (p q : A -> bool) (l : list A) :
  (forall x, p x = true -> q x = true) ->
  List.filter p l `sublist_of` List.filter q l.
Proof.
  intros Hpq. induction l as [|x l IH]; simpl; [constructor|].
  destruct (p x) eqn:Hp.
  - rewrite (Hpq x Hp). apply sublist_skip, IH.
  - destruct (q x); [apply sublist_cons|]; exact IH.
Qed.

Lemma append_assoc (a b c : string) : (a +:+ b) +:+ c = a +:+ (b +:+ c).
Proof.
  induction a as [|x a IH]; [reflexivity|].
  rewrite !append_cons, IH. reflexivity.
Qed.

Lemma allWhiteSpace_append (a b : string) :
  allWhiteSpace (a +:+ b) = allWhiteSpace a && allWhiteSpace b.
Proof.
  induction a as [|x a IH]; [reflexivity|].
  rewrite append_cons. simpl. rewrite IH, andb_assoc. reflexivity.
Qed.

Lemma isWhiteSpace_toLowerChar (c : ascii) :
  isWhiteSpace (toLowerChar c) = isWhiteSpace c.
Proof. destruct c as [[] [] [] [] [] [] [] []]; reflexivity. Qed.

Lemma allWhiteSpace_toLowerCase (s : string) :
  allWhiteSpace (toLowerCase s) = allWhiteSpace s.
Proof.
  induction s as [|c s IH]; [reflexivity|].
  simpl. rewrite isWhiteSpace_toLowerChar, IH. reflexivity.
Qed.

Lemma toLowerChar_idempotent (c : ascii) :
  toLowerChar (toLowerChar c) = toLowerChar c.
Proof. destruct c as [[] [] [] [] [] [] [] []]; reflexivity. Qed.

Lemma toLowerCase_idempotent (s : string) :
  toLowerCase (toLowerCase s) = toLowerCase s.
Proof.
  induction s as [|c s IH]; [reflexivity|].
  simpl. rewrite toLowerChar_idempotent, IH. reflexivity.
Qed.

Lemma includes_within (s outer inner a b : string) :
  outer = a +:+ inner +:+ b ->
  includes s outer = true -> includes s inner = true.
Proof.
  intros -> H. apply includes_spec in H. destruct H as (p & q & ->).
  apply includes_spec. exists (p +:+ a), (b +:+ q).
  rewrite !append_assoc. reflexivity.
Qed.

Lemma filteredEntries_within (es : list Translation) (term : string) :
  filteredEntries es term `sublist_of` es.
Proof.
  unfold filteredEntries.
  destruct (String.eqb (trim term) EmptyString); [reflexivity|].
  apply filter_sublist.
Qed.

(** X1: whatever the search term, the filtered view is a sub-list of the
    entry log: it keeps the relative order of the entries and never shows
    an entry that is not in the log, nor one entry more often than the
    log holds it. *)
Theorem filteredEntries_sublist (es : list Translation) (term : string) :
  filteredEntries es term `sublist_of` es
  /\ length (filteredEntries es term) <= length es.
Proof.
  pose proof (filteredEntries_within es term) as H.
  split; [exact H | apply sublist_length, H].
Qed.

(** X2: the search ignores the case of the term: two terms with the same
    lower-casing, such as a term and its lower-cased form, give the same
    view of every entry log. *)
Theorem filteredEntries_term_case (es : list Translation) (t1 t2 : string) :
  toLowerCase t1 = toLowerCase t2 ->
  filteredEntries es t1 = filteredEntries es t2
  /\ filteredEntries es (toLowerCase t1) = filteredEntries es t1.
Proof.
  assert (Hcase : forall u v, toLowerCase u = toLowerCase v ->
                   filteredEntries es u = filteredEntries es v).
  { intros u v H. unfold filteredEntries. rewrite !trim_eqb.
    rewrite <- (allWhiteSpace_toLowerCase u), <- (allWhiteSpace_toLowerCase v), H.
    reflexivity. }
  intros H. split; [apply Hcase, H|].
  apply Hcase, toLowerCase_idempotent.
Qed.

Lemma filteredEntries_term_case_witness :
  let es := List.map (entryAt FALLBACK_TRANSLATIONS) (seq 0 10) in
  filteredEntries es "QuAnTuM" = filteredEntries es "quantum"
  /\ filteredEntries es (toLowerCase "QuAnTuM") = filteredEntries es "QuAnTuM".
Proof.
  intros es. apply (filteredEntries_term_case es "QuAnTuM" "quantum").
  reflexivity.
Defined.

(** X3: a longer term never adds results when its lower-cased form
    contains the lower-cased form of the shorter term: the view of the
    longer term is then a sub-list of the view of the shorter one. *)
Theorem filteredEntries_narrows (es : list Translation)
    (longer shorter a b : string) :
  toLowerCase longer = a +:+ toLowerCase shorter +:+ b ->
  filteredEntries es longer `sublist_of` filteredEntries es shorter.
Proof.
  intros Hinside. destruct (allWhiteSpace shorter) eqn:Hs.
  - rewrite (filteredEntries_blank es shorter Hs). apply filteredEntries_within.
  - assert (Hl : allWhiteSpace longer = false).
    { rewrite <- allWhiteSpace_toLowerCase, Hinside, !allWhiteSpace_append,
        allWhiteSpace_toLowerCase, Hs, andb_false_r. reflexivity. }
    rewrite (filteredEntries_filter es _ Hl), (filteredEntries_filter es _ Hs).
    apply filter_sublist_implied. intros e. unfold matches.
    apply (includes_within _ _ _ a b Hinside).
Qed.

Lemma filteredEntries_narrows_witness :
  let es := List.map (entryAt FALLBACK_TRANSLATIONS) (seq 0 10) in
  filteredEntries es "Quantum S" `sublist_of` filteredEntries es "quantum".
Proof.
  intros es.
  apply (filteredEntries_narrows es "Quantum S" "quantum" EmptyString " s").
  reflexivity.
Defined.

End FilterOrder.

(** ** The engine under its triggers *)

Section Triggers.

Lemma observerCallback_intersecting (others : list bool) (s : State) :
  observerCallback true others s = loadMoreEntries s.
Proof.
  unfold observerCallback, observerCallbackFrom. simpl.
  fold (loadMoreEntries s).
  destruct (hasMore s) eqn:Hh; simpl.
  - destruct (loading s) eqn:Hl; simpl; [|reflexivity].
    symmetry. apply loadMoreEntries_blocked. auto.
  - symmetry. apply loadMoreEntries_blocked. auto.
Qed.

Lemma initialLoadEffect_empty_log (s : State) :
  entries s = [] -> initialLoadEffect s = loadMoreEntries s.
Proof.
  intros He. unfold initialLoadEffect, initialLoadEffectFrom.
  fold (loadMoreEntries s). rewrite He. simpl.
  rewrite andb_true_r.
  destruct (translations s) eqn:Hts; simpl; [|reflexivity].
  symmetry. apply loadMoreEntries_blocked. auto.
Qed.

Lemma initialLoadEffect_filled_log (s : State) :
  entries s <> [] -> initialLoadEffect s = s.
Proof.
  intros He. unfold initialLoadEffect, initialLoadEffectFrom.
  destruct (entries s); [congruence|]. simpl.
  rewrite andb_false_r. reflexivity.
Qed.



Lemma loadMoreEntriesFrom_entries (r s : State) :
  entries (loadMoreEntriesFrom r s) = entries s.
Proof.
  destruct (loadMoreEntriesFrom_cases r s) as [-> | [_ ->]]; reflexivity.
Qed.

Lemma loadMoreEntriesFrom_hasMore (r s : State) :
  hasMore (loadMoreEntriesFrom r s) = hasMore s.
Proof.
  destruct (loadMoreEntriesFrom_cases r s) as [-> | [_ ->]]; reflexivity.
Qed.

Lemma stepUI_entries_prefix (p : Page) (ev : UIEvent) :
  entries (live p) `prefix_of` entries (live (stepUI p ev)).
Proof.
  destruct ev as [|b others|]; simpl.
  - destruct (initialLoadEffectFrom_cases (live p) (live p)) as [-> | ->];
      [reflexivity | rewrite loadMoreEntriesFrom_entries; reflexivity].
  - destruct (observerCallbackFrom_cases (rendered p) b others (live p))
      as [-> | ->];
      [reflexivity | rewrite loadMoreEntriesFrom_entries; reflexivity].
  - unfold fireTimer. destruct (timers (live p)); [reflexivity|].
    simpl. apply prefix_app_r. reflexivity.
Qed.

Lemma runUI_entries_prefix (evs : list UIEvent) (p : Page) :
  entries (live p) `prefix_of` entries (live (runUI evs p)).
Proof.
  revert p. induction evs as [|ev evs IH]; intros p; [reflexivity|].
  simpl. transitivity (entries (live (stepUI p ev)));
    [apply stepUI_entries_prefix | apply IH].
Qed.

(** X5: however commits, notifications (also to an observer not yet
    replaced) and timers interleave after the list was loaded, the source
    list is unchanged, the log holds exactly 10 entries per counted page,
    every entry carries the sentence its id selects cyclically, and every
    id is below the log length. *)
Theorem runUI_keeps_log_cyclic (ts : list string) (evs : list UIEvent) :
  let s := live (runUI evs (pageLoaded ts)) in
  translations s = ts
  /\ length (entries s) = 10 * currentPage s
  /\ (forall e, In e (entries s) ->
        text e = nth (id e mod length ts) ts EmptyString
        /\ id e < length (entries s))
  /\ (ts = [] -> entries s = []).
Proof.
  intros s.
  assert (Hc : consistent ts (runUI evs (pageLoaded ts)))
    by apply consistent_runUI, consistent_pageLoaded.
  destruct Hc as (Hts & _ & _ & _ & Hlen & Hent & _ & _ & Hemp).
  fold s in Hts, Hlen, Hent, Hemp.
  split; [exact Hts|]. split; [unfold entriesPerPage in Hlen; lia|].
  split; [|exact Hemp].
  intros e He. rewrite List.Forall_forall in Hent.
  destruct (Hent e He) as [Heq Hid]. split; [|exact Hid].
  rewrite Heq at 1. reflexivity.
Qed.

(** X6: the log only ever grows at its end: whatever the page has done so
    far, after any further events the earlier log is a prefix of the
    later one. *)
Theorem entries_prefix_preserved (p : Page) (evs : list UIEvent) :
  entries (live p) `prefix_of` entries (live (runUI evs p)).
Proof. apply runUI_entries_prefix. Qed.

(** X7: with an empty source list nothing ever happens: no commit, no
    notification and no timer changes the state, and the placeholder
    screen stays. *)
Theorem empty_source_is_stuck (evs : list UIEvent) :
  live (runUI evs (pageLoaded [])) = loaded []
  /\ showPlaceholder (live (runUI evs (pageLoaded []))) = true.
Proof.
  assert (H : forall p, live p = loaded [] -> translations (rendered p) = [] ->
              live (runUI evs p) = loaded []).
  { induction evs as [|ev evs IH]; intros p Hl Hr; [exact Hl|].
    simpl. apply IH; destruct ev as [|b others|]; simpl; rewrite ?Hl;
      try reflexivity; try exact Hr.
    unfold observerCallbackFrom, loadMoreEntriesFrom. rewrite Hr. simpl.
    rewrite orb_true_r. destruct (b && hasMore (rendered p) && _); reflexivity. }
  rewrite (H (pageLoaded []) eq_refl eq_refl). split; reflexivity.
Qed.

End Triggers.

(** ** Scrolling to the end of the dictionary *)

Section ScrollSession.

Lemma invariant_hasMore (ts : list string) (s : State) :
  ts <> [] -> invariant ts s ->
  hasMore s = (currentPage s <? 2 * length ts)
  /\ currentPage s <= 2 * length ts.
Proof.
  intros Hne (_ & _ & _ & Hcap). unfold entriesPerPage in Hcap.
  destruct (hasMore s).
  - destruct Hcap as [[E _] | Hlt]; [congruence|].
    split; [symmetry; apply Nat.ltb_lt; lia | lia].
  - destruct Hcap as [_ Heq].
    split; [symmetry; apply Nat.ltb_ge; lia | lia].
Qed.

(** One round: the sentinel is seen, then the timer runs. *)
Lemma scroll_round (ts : list string) (s : State) :
  ts <> [] -> invariant ts s -> loading s = false ->
  let s' := fireTimer (loadMoreEntries s) in
  invariant ts s' /\ loading s' = false
  /\ currentPage s' = Nat.min (currentPage s + 1) (2 * length ts).
Proof.
  intros Hne Hinv Hl s'. subst s'.
  destruct (invariant_hasMore ts s Hne Hinv) as [Hh Hle].
  assert (Hts : translations s = ts) by apply Hinv.
  destruct (hasMore s) eqn:Hhas.
  - symmetry in Hh. apply Nat.ltb_lt in Hh.
    pose proof (invariant_loadMoreEntries ts s Hinv) as Hinv1.
    assert (Hpending : timers (loadMoreEntries s) <> []).
    { rewrite loadMoreEntries_accepted by congruence. simpl.
      destruct (timers s); discriminate. }
    destruct (fireTimer_batch ts _ Hinv1 Hpending) as (_ & Hp & Hl' & _).
    split; [apply invariant_fireTimer, Hinv1|]. split; [exact Hl'|].
    rewrite Hp. rewrite loadMoreEntries_accepted by congruence. simpl. lia.
  - symmetry in Hh. apply Nat.ltb_ge in Hh.
    rewrite (loadMoreEntries_blocked s) by auto.
    assert (Ht : timers s = []).
    { destruct Hinv as (_ & _ & [[Ht _] | (_ & Hl' & _)] & _);
        [exact Ht | congruence]. }
    rewrite (fireTimer_idle s Ht).
    split; [exact Hinv|]. split; [exact Hl | lia].
Qed.

Lemma runUI_cons (ev : UIEvent) (evs : list UIEvent) (p : Page) :
  runUI (ev :: evs) p = runUI evs (stepUI p ev).
Proof. reflexivity. Qed.

Lemma initialLoadEffect_after_call (s : State) :
  initialLoadEffect (loadMoreEntries s) = loadMoreEntries s.
Proof.
  destruct (entries s) eqn:He.
  - rewrite initialLoadEffect_empty_log
      by (rewrite loadMoreEntries_entries; exact He).
    apply loadMoreEntries_idempotent.
  - apply initialLoadEffect_filled_log.
    rewrite loadMoreEntries_entries. congruence.
Qed.

Lemma invariant_filled (ts : list string) (s : State) :
  invariant ts s -> 0 < currentPage s -> entries s <> [].
Proof.
  intros Hinv Hp E. pose proof (invariant_length ts s Hinv) as Hlen.
  rewrite E in Hlen. unfold entriesPerPage in Hlen. simpl in Hlen. lia.
Qed.

(** One round of the schedule, from a page whose functions are up to
    date, ends in such a page again. *)
Lemma settled_round (ts : list string) (s r0 : State) :
  ts <> [] -> invariant ts s -> loading s = false ->
  runUI [Commit; TimerRuns; Commit]
    {| rendered := r0; live := loadMoreEntries s |}
  = {| rendered := fireTimer (loadMoreEntries s);
       live := fireTimer (loadMoreEntries s) |}.
Proof.
  intros Hne Hinv Hl.
  destruct (scroll_round ts s Hne Hinv Hl) as (Hinv' & _ & Hp').
  assert (Hfilled : entries (fireTimer (loadMoreEntries s)) <> []).
  { apply (invariant_filled ts _ Hinv'). rewrite Hp'.
    destruct ts; [congruence | simpl length; lia]. }
  unfold runUI; simpl.
  fold (initialLoadEffect (loadMoreEntries s)).
  rewrite initialLoadEffect_after_call.
  fold (initialLoadEffect (fireTimer (loadMoreEntries s))).
  rewrite (initialLoadEffect_filled_log _ Hfilled). reflexivity.
Qed.

Lemma firstPage_settled (ts : list string) :
  ts <> [] ->
  runUI firstPage (pageLoaded ts)
  = {| rendered := fireTimer (loadMoreEntries (loaded ts));
       live := fireTimer (loadMoreEntries (loaded ts)) |}.
Proof.
  intros Hne. unfold firstPage. rewrite runUI_cons.
  change (stepUI (pageLoaded ts) Commit)
    with {| rendered := loaded ts; live := initialLoadEffect (loaded ts) |}.
  rewrite initialLoadEffect_empty_log by reflexivity.
  apply (settled_round ts (loaded ts) _ Hne (invariant_loaded ts) eq_refl).
Qed.

Lemma scrollRounds_settled (ts : list string) (k : nat) (s : State) :
  ts <> [] -> invariant ts s -> loading s = false ->
  exists s',
    runUI (scrollRounds k) {| rendered := s; live := s |}
    = {| rendered := s'; live := s' |}
    /\ invariant ts s' /\ loading s' = false
    /\ currentPage s' = Nat.min (currentPage s + k) (2 * length ts).
Proof.
  intros Hne. revert s. induction k as [|k IH]; intros s Hinv Hl.
  - exists s. destruct (invariant_hasMore ts s Hne Hinv) as [_ Hle].
    split; [reflexivity|]. split; [exact Hinv|]. split; [exact Hl | lia].
  - destruct (scroll_round ts s Hne Hinv Hl) as (Hinv1 & Hl1 & Hp1).
    destruct (IH _ Hinv1 Hl1) as (s' & Hrun & Hinv' & Hl' & Hp').
    exists s'. split; [|split; [exact Hinv' | split; [exact Hl' | lia]]].
    cbn [scrollRounds]. rewrite runUI_cons.
    change (stepUI {| rendered := s; live := s |} (SentinelObserved true []))
      with {| rendered := s; live := observerCallback true [] s |}.
    rewrite observerCallback_intersecting.
    change (runUI (Commit :: TimerRuns :: Commit :: scrollRounds k) ?p)
      with (runUI (scrollRounds k) (runUI [Commit; TimerRuns; Commit] p)).
    rewrite (settled_round ts s s Hne Hinv Hl). exact Hrun.
Qed.

Lemma scrollSession_settled (ts : list string) (k : nat) :
  ts <> [] ->
  exists s,
    runUI (scrollSession k) (pageLoaded ts) = {| rendered := s; live := s |}
    /\ invariant ts s /\ loading s = false
    /\ currentPage s = Nat.min (k + 1) (2 * length ts).
Proof.
  intros Hne. unfold scrollSession.
  rewrite runUI_app, (firstPage_settled ts Hne).
  destruct (scroll_round ts (loaded ts) Hne (invariant_loaded ts) eq_refl)
    as (Hinv1 & Hl1 & Hp1).
  destruct (scrollRounds_settled ts k _ Hne Hinv1 Hl1)
    as (s & Hrun & Hinv & Hl & Hp).
  exists s. split; [exact Hrun|]. split; [exact Hinv|]. split; [exact Hl|].
  rewrite Hp, Hp1. change (currentPage (loaded ts)) with 0.
  destruct ts; [congruence | simpl length; lia].
Qed.

(** X8: a visitor who keeps the sentinel in view gets one page per round
    until the cap and nothing after it: in the schedule in which React
    commits after every change, after the first page and k further rounds
    the log holds the first 10 * min (k+1) (2*len) entries of the cyclic
    enumeration, nothing is loading, and the end message shows exactly
    when k+1 >= 2*len. *)
Theorem scrolling_reaches_the_end (ts : list string) (k : nat) :
  ts <> [] ->
  let s := live (runUI (scrollSession k) (pageLoaded ts)) in
  let pages := Nat.min (k + 1) (2 * length ts) in
  currentPage s = pages
  /\ entries s = List.map (entryAt ts) (seq 0 (10 * pages))
  /\ loading s = false
  /\ hasMore s = (k + 1 <? 2 * length ts)
  /\ showEndMessage s = (2 * length ts <=? k + 1).
Proof.
  intros Hne s pages.
  destruct (scrollSession_settled ts k Hne) as (s' & Hrun & Hinv & Hl & Hpages).
  assert (Hs : s = s') by (subst s; rewrite Hrun; reflexivity).
  rewrite <- Hs in Hinv, Hl, Hpages. fold pages in Hpages.
  assert (Hpos : 0 < length ts) by (destruct ts; [congruence | simpl; lia]).
  destruct (invariant_hasMore ts s Hne Hinv) as [Hh _].
  assert (Hmore : hasMore s = (k + 1 <? 2 * length ts)).
  { rewrite Hh, Hpages. subst pages.
    destruct (Nat.ltb_spec (k + 1) (2 * length ts)) as [Hlt | Hge].
    - apply Nat.ltb_lt. lia.
    - apply Nat.ltb_ge. lia. }
  split; [exact Hpages|]. split.
  { destruct Hinv as (_ & Hes & _). rewrite Hes, Hpages.
    unfold entriesPerPage. rewrite Nat.mul_comm. reflexivity. }
  split; [exact Hl|]. split; [exact Hmore|].
  unfold showEndMessage. rewrite Hmore.
  rewrite (invariant_length ts s Hinv), Hpages. unfold entriesPerPage.
  assert (Hp0 : 0 < pages * 10) by (subst pages; lia).
  apply Nat.ltb_lt in Hp0. rewrite Hp0, andb_true_r.
  rewrite Nat.ltb_antisym, negb_involutive. reflexivity.
Qed.

Lemma scrolling_reaches_the_end_witness :
  let ts := ["I am Groot"; "We are Groot"] in
  let s := live (runUI (scrollSession 5) (pageLoaded ts)) in
  currentPage s = 4 /\ length (entries s) = 40 /\ showEndMessage s = true.
Proof.
  intros ts s.
  assert (Hne : ts <> []) by discriminate.
  destruct (scrolling_reaches_the_end ts 5 Hne) as (Hp & Hes & _ & _ & Hend).
  fold s in Hp, Hes, Hend.
  split; [exact Hp|]. split; [rewrite Hes; reflexivity | exact Hend].
Defined.

Lemma filter_none {A : Type} (p : A -> bool) (l : list A) :
  (forall x, In x l -> p x = false) -> List.filter p l = [].
Proof.
  induction l as [|x l IH]; intros H; [reflexivity|].
  simpl. rewrite (H x) by (left; reflexivity).
  apply IH. intros y Hy. apply H. right. exact Hy.
Qed.

Lemma count_one_period (n k j : nat) :
  j < n ->
  List.filter (fun i => i mod n =? j) (seq (k * n) n) = [k * n + j].
Proof.
  intros Hj.
  rewrite (List.filter_ext_in _ (fun i => i =? k * n + j)).
  - replace n with (j + (1 + (n - S j))) at 2 by lia.
    rewrite !seq_app, !List.filter_app. simpl.
    rewrite Nat.eqb_refl.
    rewrite !filter_none; [reflexivity | |];
      intros i Hi; apply in_seq in Hi; apply Nat.eqb_neq; lia.
  - intros i Hi. apply in_seq in Hi.
    assert (Hmod : i mod n = i - k * n).
    { symmetry. apply (Nat.mod_unique i n k); lia. }
    rewrite Hmod.
    destruct (Nat.eqb_spec (i - k * n) j), (Nat.eqb_spec i (k * n + j));
      try reflexivity; lia.
Qed.

Lemma count_periods (n k j : nat) :
  j < n ->
  length (List.filter (fun i => i mod n =? j) (seq 0 (k * n))) = k.
Proof.
  intros Hj. induction k as [|k IH]; [reflexivity|].
  replace (S k * n) with (k * n + n) by lia.
  rewrite seq_app, List.filter_app, length_app, IH. simpl.
  rewrite (count_one_period n k j Hj). simpl. lia.
Qed.

(** X9: at the end of that schedule every source sentence has been shown
    exactly 20 times: once the rounds have reached the cap, for each
    position j of the source list exactly 20 entries of the log have an
    id congruent to j modulo the list length, and their text is the j-th
    sentence. *)
Theorem final_log_repeats_each_source_20_times
    (ts : list string) (k j : nat) :
  2 * length ts <= k + 1 -> j < length ts ->
  let s := live (runUI (scrollSession k) (pageLoaded ts)) in
  let shown := List.filter (fun e => id e mod length ts =? j) (entries s) in
  length shown = 20
  /\ forall e, In e shown -> ts !! j = Some (text e).
Proof.
  intros Hk Hj s shown.
  assert (Hne : ts <> []) by (intros ->; simpl in Hj; lia).
  destruct (scrollSession_settled ts k Hne) as (s' & Hrun & Hinv & _ & Hp).
  assert (Hs : s = s') by (subst s; rewrite Hrun; reflexivity).
  rewrite <- Hs in Hinv, Hp.
  destruct Hinv as (_ & Hes & _).
  replace (currentPage s * entriesPerPage) with (20 * length ts) in Hes
    by (rewrite Hp; unfold entriesPerPage; lia).
  subst shown. rewrite Hes. split.
  - rewrite (List.filter_map_swap). rewrite length_map.
    apply (count_periods (length ts) 20 j Hj).
  - intros e He. apply List.filter_In in He. destruct He as [He Hmod].
    apply List.in_map_iff in He. destruct He as (i & <- & _).
    apply Nat.eqb_eq in Hmod. cbn [entryAt id] in Hmod.
    rewrite <- Hmod. apply cyclic_text, Hne.
Qed.

Lemma final_log_repeats_each_source_20_times_witness :
  let ts := ["I am Groot"; "We are Groot"] in
  let s := live (runUI (scrollSession 3) (pageLoaded ts)) in
  length (List.filter (fun e => id e mod length ts =? 1) (entries s)) = 20.
Proof.
  intros ts s.
  apply (final_log_repeats_each_source_20_times ts 3 1); simpl; lia.
Defined.

End ScrollSession.

(** ** What the page shows *)

Section Rendering.

Lemma stepUI_hasMore_false (p : Page) (ev : UIEvent) :
  hasMore (live p) = false -> hasMore (live (stepUI p ev)) = false.
Proof.
  intros Hh. destruct ev as [|b others|]; simpl.
  - destruct (initialLoadEffectFrom_cases (live p) (live p)) as [-> | ->];
      [exact Hh | rewrite loadMoreEntriesFrom_hasMore; exact Hh].
  - destruct (observerCallbackFrom_cases (rendered p) b others (live p))
      as [-> | ->];
      [exact Hh | rewrite loadMoreEntriesFrom_hasMore; exact Hh].
  - unfold fireTimer. destruct (timers (live p)) as [|c rest]; [exact Hh|].
    unfold timerCallback; simpl. rewrite Hh.
    destruct (_ <=? _); reflexivity.
Qed.

Lemma runUI_hasMore_false (evs : list UIEvent) (p : Page) :
  hasMore (live p) = false -> hasMore (live (runUI evs p)) = false.
Proof.
  revert p. induction evs as [|ev evs IH]; intros p Hh; [exact Hh|].
  apply IH, stepUI_hasMore_false, Hh.
Qed.

(** X10: on every run of the page the end-of-dictionary message is shown
    only when the source list is non-empty and the log holds at least 20
    entries per source sentence, and once shown it stays shown whatever
    happens afterwards. *)
Theorem end_message_at_cap (ts : list string) (evs later : list UIEvent) :
  let p := runUI evs (pageLoaded ts) in
  showEndMessage (live p) = true ->
  ts <> []
  /\ 20 * length ts <= length (entries (live p))
  /\ showEndMessage (live (runUI later p)) = true.
Proof.
  intros p. unfold showEndMessage.
  rewrite !andb_true_iff, !negb_true_iff, !Nat.ltb_lt. intros [Hh Hlen].
  assert (Hc : consistent ts p)
    by apply consistent_runUI, consistent_pageLoaded.
  destruct Hc as (_ & _ & _ & _ & _ & _ & _ & Hhm & _).
  destruct (Hhm Hh) as [Hne Hcap].
  split; [exact Hne|]. split; [lia|]. split.
  - apply runUI_hasMore_false, Hh.
  - pose proof (prefix_length _ _ (runUI_entries_prefix later p)). lia.
Qed.

Lemma end_message_at_cap_witness :
  let ts := ["I am Groot"] in
  let p := runUI (scrollSession 1) (pageLoaded ts) in
  showEndMessage (live p) = true
  /\ 20 * length ts <= length (entries (live p))
  /\ showEndMessage (live (runUI doubleNotification p)) = true.
Proof.
  intros ts p.
  assert (Hend : showEndMessage (live p) = true) by reflexivity.
  destruct (end_message_at_cap ts (scrollSession 1) doubleNotification Hend)
    as (_ & Hcap & Hstays).
  split; [exact Hend|]. split; [exact Hcap | exact Hstays].
Defined.

(** X11: once the list is loaded, the placeholder screen is shown exactly
    when the source list is empty; with a non-empty list the page itself
    is rendered in every state, before the first batch included. *)
Theorem placeholder_iff_empty_source (ts : list string) (s : State) :
  reachable ts s -> (showPlaceholder s = true <-> ts = []).
Proof.
  intros Hr. destruct (reachable_consistent ts s Hr) as (p & Hc & <-).
  destruct Hc as (Hts & _ & _ & _ & _ & _ & _ & _ & Hemp).
  unfold showPlaceholder. rewrite andb_true_iff, !Nat.eqb_eq, Hts. split.
  - intros [H _]. destruct ts; [reflexivity | discriminate].
  - intros E. rewrite (Hemp E), E. split; reflexivity.
Qed.

Lemma placeholder_iff_empty_source_witness :
  showPlaceholder (loaded FALLBACK_TRANSLATIONS) = true
  <-> FALLBACK_TRANSLATIONS = [].
Proof.
  apply placeholder_iff_empty_source. exists []. reflexivity.
Defined.

End Rendering.

(** ** Articles and the random pick *)

Section Articles.

Lemma numberToString_inj (m n : nat) :
  numberToString m = numberToString n -> m = n.
Proof.
  unfold numberToString. intros H.
  apply (f_equal NilEmpty.uint_of_string) in H.
  rewrite !NilEmpty.usu in H. injection H as H.
  apply (f_equal Nat.of_uint) in H. rewrite !Unsigned.of_to in H. exact H.
Qed.

Lemma elementId_inj (e1 e2 : Translation) :
  elementId e1 = elementId e2 -> id e1 = id e2.
Proof.
  unfold elementId. intros H. apply numberToString_inj.
  apply (String.app_inj "entry-"). exact H.
Qed.

Lemma getElementById_unique (articles : list Translation) (i : nat)
    (e : Translation) :
  NoDup (List.map id articles) -> articles !! i = Some e ->
  getElementById articles (elementId e) = Some i.
Proof.
  revert i. induction articles as [|a rest IH]; intros i Hnd Hi;
    [discriminate|].
  simpl in Hnd. apply NoDup_cons in Hnd. destruct Hnd as [Hnotin Hnd].
  destruct i as [|i]; simpl in Hi; cbn [getElementById].
  - injection Hi as ->. rewrite String.eqb_refl. reflexivity.
  - destruct (String.eqb_spec (elementId a) (elementId e)) as [E | _].
    + exfalso. apply Hnotin. apply elementId_inj in E. rewrite E.
      apply list_elem_of_In, List.in_map, list_elem_of_In.
      apply (list_elem_of_lookup_2 _ i). exact Hi.
    + rewrite (IH i Hnd Hi). reflexivity.
Qed.

Lemma NoDup_fmap_injective {A B : Type} (f : A -> B) (l : list A) (x y : A) :
  NoDup (f <$> l) -> x ∈ l -> y ∈ l -> f x = f y -> x = y.
Proof.
  induction l as [|a l IH]; intros Hnd Hx Hy E; [inversion Hx|].
  rewrite fmap_cons in Hnd. apply NoDup_cons in Hnd.
  destruct Hnd as [Hnotin Hnd].
  apply elem_of_cons in Hx. apply elem_of_cons in Hy.
  destruct Hx as [-> | Hx], Hy as [-> | Hy].
  - reflexivity.
  - exfalso. apply Hnotin. rewrite E. apply list_elem_of_fmap_2, Hy.
  - exfalso. apply Hnotin. rewrite <- E. apply list_elem_of_fmap_2, Hx.
  - apply IH; assumption.
Qed.

Lemma filteredEntries_ids_NoDup (ts : list string) (s : State) (term : string) :
  invariant ts s -> NoDup (List.map id (filteredEntries (entries s) term)).
Proof.
  intros Hinv.
  apply (sublist_NoDup _ (List.map id (entries s))).
  - rewrite (invariant_ids ts s Hinv). apply NoDup_seq.
  - change (id <$> filteredEntries (entries s) term `sublist_of` id <$> entries s).
    apply fmap_sublist, filteredEntries_within.
Qed.

Lemma elementIds_NoDup (filtered : list Translation) :
  NoDup (List.map id filtered) -> NoDup (List.map elementId filtered).
Proof.
  intros Hnd.
  change (NoDup (elementId <$> filtered)).
  change (NoDup (id <$> filtered)) in Hnd.
  apply NoDup_fmap_1 in Hnd as Hnd'.
  apply NoDup_fmap_2_strong; [|exact Hnd'].
  intros x y Hx Hy E. apply elementId_inj in E.
  apply (NoDup_fmap_injective id _ x y Hnd Hx Hy E).
Qed.

(** X12: in the schedule in which React commits after every change, after
    the first page and any number of rounds, the rendered articles have
    pairwise distinct React keys (the entry ids) and pairwise distinct
    DOM ids (entry-<id> in decimal), whatever the search term. *)
Theorem article_keys_distinct (ts : list string) (k : nat) (term : string) :
  let s := live (runUI (scrollSession k) (pageLoaded ts)) in
  NoDup (List.map id (filteredEntries (entries s) term))
  /\ NoDup (List.map elementId (filteredEntries (entries s) term)).
Proof.
  intros s.
  assert (Hnd : NoDup (List.map id (filteredEntries (entries s) term))).
  { destruct ts as [|t ts'] eqn:Hts.
    - assert (Hc : consistent [] (runUI (scrollSession k) (pageLoaded [])))
        by apply consistent_runUI, consistent_pageLoaded.
      destruct Hc as (_ & _ & _ & _ & _ & _ & _ & _ & Hemp).
      subst s. rewrite (Hemp eq_refl).
      replace (filteredEntries [] term) with (@nil Translation);
        [constructor|].
      unfold filteredEntries. destruct (String.eqb _ _); reflexivity.
    - assert (Hne : t :: ts' <> []) by discriminate.
      destruct (scrollSession_settled (t :: ts') k Hne) as (s' & Hrun & Hinv & _).
      assert (Hs : s = s') by (subst s; rewrite Hrun; reflexivity).
      rewrite Hs. apply (filteredEntries_ids_NoDup _ s' term Hinv). }
  split; [exact Hnd | apply elementIds_NoDup, Hnd].
Qed.

(** X13: when the visible entries have pairwise distinct ids, the Random
    button scrolls to the very article it drew: for a drawn index below
    the number of visible entries, the DOM id looked up is found at
    exactly that position among the rendered articles; with no visible
    entry the function returns without scrolling. *)
Theorem random_pick_scrolls_to_drawn_article
    (filtered : list Translation) (randomIndex : nat) :
  NoDup (List.map id filtered) ->
  (randomIndex < length filtered ->
   getRandomDefinition randomIndex filtered = Return (Some randomIndex))
  /\ (filtered = [] ->
      getRandomDefinition randomIndex filtered = Return None).
Proof.
  intros Hnd. split.
  - intros Hlt. unfold getRandomDefinition.
    destruct (lookup_lt_is_Some_2 filtered randomIndex Hlt) as [e He].
    destruct (Nat.eqb_spec (length filtered) 0) as [E | _]; [lia|].
    rewrite He. f_equal.
    apply getElementById_unique; [exact Hnd | exact He].
  - intros ->. reflexivity.
Qed.

Lemma random_pick_scrolls_to_drawn_article_witness :
  let s := live (runUI (scrollSession 2) (pageLoaded FALLBACK_TRANSLATIONS)) in
  let filtered := filteredEntries (entries s) "quantum" in
  List.map id filtered = [1; 11; 21]
  /\ getRandomDefinition 2 filtered = Return (Some 2).
Proof.
  intros s filtered.
  assert (Hids : List.map id filtered = [1; 11; 21]) by reflexivity.
  assert (Hnd : NoDup (List.map id filtered)).
  { rewrite Hids. apply (bool_decide_unpack _). vm_compute. exact I. }
  destruct (random_pick_scrolls_to_drawn_article filtered 2 Hnd) as [Hpick _].
  split; [exact Hids | apply Hpick; vm_compute; lia].
Defined.

End Articles.

(** ** From the loader to the engine *)

Section LoadedList.

Variable JSON_parse : string -> Result JSValue.

#[local] Arguments truthy : simpl never.
#[local] Arguments strictEqualsZero : simpl never.
#[local] Arguments getProperty : simpl never.

Lemma stringItems_strings (l : list string) :
  stringItems (List.map JString l) = Some l.
Proof.
  induction l as [|x l IH]; [reflexivity|]. simpl. rewrite IH. reflexivity.
Qed.

Lemma loaded_length (r : FetchOutcome) :
  exists len,
    getProperty (loadTranslations JSON_parse r) "length" = Return len
    /\ strictEqualsZero len = false.
Proof.
  destruct (loadTranslations_cases JSON_parse r) as [E | E].
  - rewrite E. eexists. split; reflexivity.
  - apply tryLoadTranslations_Return in E.
    destruct E as (_ & _ & len & _ & _ & _ & _ & _ & Hlen & Hzero).
    exists len. split; assumption.
Qed.

Lemma loaded_list_nonempty (r : FetchOutcome) (ts : list string) :
  asStringList (loadTranslations JSON_parse r) = Some ts -> ts <> [].
Proof.
  intros Hts ->. destruct (loaded_length r) as (len & Hlen & Hzero).
  destruct (loadTranslations JSON_parse r) as [| | | |items|]; try discriminate.
  simpl in Hts. apply stringItems_map in Hts. subst items.
  vm_compute in Hlen. injection Hlen as <-. discriminate.
Qed.

(** X14: whatever the fetch delivers, the value the loader hands over is
    truthy and its length is not 0, so the test translations.length === 0
    of the guard and of the placeholder screen is false once loading has
    finished. *)
Theorem loaded_value_passes_length_test (r : FetchOutcome) :
  truthy (Some (loadTranslations JSON_parse r)) = true
  /\ exists len,
       getProperty (loadTranslations JSON_parse r) "length" = Return len
       /\ strictEqualsZero len = false.
Proof.
  split; [|apply loaded_length].
  destruct (loadTranslations_cases JSON_parse r) as [E | E].
  - rewrite E. reflexivity.
  - apply tryLoadTranslations_Return in E.
    destruct E as (_ & _ & _ & _ & _ & _ & _ & Htruthy & _). exact Htruthy.
Qed.

(** X15: the loader and the engine fit together: when the loaded value is
    a list of strings (on every failure it is the fallback list), the
    list is not empty, the initial-load effect is accepted, and once its
    timer has run the page shows exactly the entries 0..9 of the cyclic
    enumeration, with nothing loading and more to come or the cap
    reached. *)
Theorem loaded_list_fills_first_page (r : FetchOutcome) (ts : list string) :
  asStringList (loadTranslations JSON_parse r) = Some ts ->
  let s := live (runUI firstPage (pageLoaded ts)) in
  ts <> []
  /\ ((exists e, tryLoadTranslations JSON_parse r = Throw e) ->
      ts = FALLBACK_TRANSLATIONS)
  /\ entries s = List.map (entryAt ts) (seq 0 10)
  /\ loading s = false
  /\ showPlaceholder s = false.
Proof.
  intros Hts s.
  pose proof (loaded_list_nonempty r ts Hts) as Hne.
  split; [exact Hne|]. split.
  { intros [e He]. unfold loadTranslations in Hts. rewrite He in Hts.
    unfold fallbackValue, asStringList in Hts.
    rewrite stringItems_strings in Hts. congruence. }
  destruct (scroll_round ts (loaded ts) Hne (invariant_loaded ts) eq_refl)
    as (Hinv & Hl & Hp).
  assert (Hs : s = fireTimer (loadMoreEntries (loaded ts)))
    by (subst s; rewrite (firstPage_settled ts Hne); reflexivity).
  rewrite <- Hs in Hinv, Hl, Hp.
  change (currentPage (loaded ts)) with 0 in Hp.
  assert (Hpage : currentPage s = 1)
    by (rewrite Hp; destruct ts; [congruence | simpl length; lia]).
  split.
  { destruct Hinv as (_ & Hes & _). rewrite Hes, Hpage. reflexivity. }
  split; [exact Hl|].
  unfold showPlaceholder.
  destruct Hinv as (Htr & _). rewrite Htr.
  destruct ts; [congruence | reflexivity].
Qed.

End LoadedList.

Section LoadedListExamples.

Lemma loaded_list_fills_first_page_witness :
  let s := live (runUI firstPage (pageLoaded FALLBACK_TRANSLATIONS)) in
  entries s = List.map (entryAt FALLBACK_TRANSLATIONS) (seq 0 10)
  /\ showPlaceholder s = false.
Proof.
  intros s.
  destruct (loaded_list_fills_first_page
              (parseOnly listPayload listPayloadData) FetchRejected
              FALLBACK_TRANSLATIONS eq_refl) as (_ & _ & Hes & _ & Hshow).
  split; [exact Hes | exact Hshow].
Defined.

End LoadedListExamples.

(** ** The preference across clicks and reloads *)

Section ThemeSessions.

Lemma persistDarkMode_inSync (t : Theme) : themeInSync (persistDarkMode t).
Proof. split; [apply lookup_insert_eq | reflexivity]. Qed.

Lemma toggleDarkMode_inSync (t : Theme) : themeInSync (toggleDarkMode t).
Proof. rewrite toggleDarkMode_unfold. apply persistDarkMode_inSync. Qed.

Lemma setDarkMode_inSync (f : bool -> bool) (t : Theme) :
  themeInSync t -> themeInSync (setDarkMode f t).
Proof.
  intros H. unfold setDarkMode.
  destruct (Bool.eqb (f (darkMode t)) (darkMode t));
    [exact H | apply persistDarkMode_inSync].
Qed.

Lemma toggles_succ (n : nat) (t : Theme) :
  toggles (S n) t = toggleDarkMode (toggles n t).
Proof. reflexivity. Qed.

Lemma toggleDarkMode_darkMode (t : Theme) :
  darkMode (toggleDarkMode t) = negb (darkMode t).
Proof. rewrite toggleDarkMode_unfold. reflexivity. Qed.

Lemma toggleDarkMode_writes (t : Theme) :
  writes (toggleDarkMode t)
  = writes t ++ [(darkModeKey, JSON_stringify_bool (negb (darkMode t)))].
Proof. rewrite toggleDarkMode_unfold. reflexivity. Qed.

(** X16: after any number n of clicks on the theme button the preference
    is the original one flipped n times (unchanged for even n), exactly n
    values were stored, and from the first click on the stored text and
    the class of the document agree with it. *)
Theorem toggles_keep_theme_in_sync (n : nat) (t : Theme) :
  darkMode (toggles n t) = xorb (Nat.odd n) (darkMode t)
  /\ length (writes (toggles n t)) = length (writes t) + n
  /\ (0 < n \/ themeInSync t -> themeInSync (toggles n t)).
Proof.
  split; [|split].
  - induction n as [|n IH]; [reflexivity|].
    rewrite toggles_succ, toggleDarkMode_darkMode, IH, Nat.odd_succ.
    rewrite <- Nat.negb_odd. destruct (Nat.odd n), (darkMode t); reflexivity.
  - induction n as [|n IH]; [simpl; lia|].
    rewrite toggles_succ, toggleDarkMode_writes, length_app, IH. simpl. lia.
  - destruct n as [|n].
    + intros [H | H]; [lia | exact H].
    + intros _. rewrite toggles_succ. apply toggleDarkMode_inSync.
Qed.

Lemma toggles_keep_theme_in_sync_witness :
  let t := {| darkMode := false; localStorage := ∅; writes := [];
              documentDark := false |} in
  darkMode (toggles 3 t) = true /\ length (writes (toggles 3 t)) = 3
  /\ themeInSync (toggles 3 t).
Proof.
  intros t.
  destruct (toggles_keep_theme_in_sync 3 t) as (Hd & Hw & Hsync).
  split; [exact Hd|]. split; [exact Hw | apply Hsync; left; lia].
Defined.

Variable JSON_parse : string -> Result JSValue.

(** What [JSON.parse] does on the two texts [JSON.stringify] yields for a
    boolean. *)
Hypothesis parse_stringify :
  forall b, JSON_parse (JSON_stringify_bool b) = Return (JBool b).

Lemma mountTheme_stored (storage : gmap string string) (b : bool) :
  storage !! darkModeKey = Some (JSON_stringify_bool b) ->
  mountTheme JSON_parse storage
  = Mounted (setDarkMode (fun _ => b)
               (persistDarkMode
                  {| darkMode := false; localStorage := storage; writes := [];
                     documentDark := false |})).
Proof.
  intros H. unfold mountTheme. rewrite H, parse_stringify.
  destruct b; reflexivity.
Qed.

(** X17: mounting restores a stored preference: when the stored text is
    the one a boolean was persisted as, the effects end with darkMode
    equal to it, the class of the document set accordingly and the store
    as it was; on the way the value false of the first render is written
    first, and true after it when dark mode was stored. *)
Theorem mount_restores_stored_preference
    (storage : gmap string string) (b : bool) :
  storage !! darkModeKey = Some (JSON_stringify_bool b) ->
  exists t,
    mountTheme JSON_parse storage = Mounted t
    /\ darkMode t = b
    /\ documentDark t = b
    /\ localStorage t = storage
    /\ writes t
       = (darkModeKey, "false")
           :: (if b then [(darkModeKey, "true")] else []).
Proof.
  intros H. eexists. split; [apply (mountTheme_stored storage b H)|].
  destruct b; unfold setDarkMode, persistDarkMode; simpl.
  - repeat split. rewrite insert_insert_eq. apply insert_id, H.
  - repeat split. apply insert_id, H.
Qed.

(** X18: the preference survives a reload: whatever the page was mounted
    from and however often the theme was toggled afterwards, mounting
    again from the store left behind yields the same darkMode. *)
Theorem preference_survives_reload
    (storage : gmap string string) (t0 : Theme) (n : nat) :
  mountTheme JSON_parse storage = Mounted t0 ->
  exists t1,
    mountTheme JSON_parse (localStorage (toggles n t0)) = Mounted t1
    /\ darkMode t1 = darkMode (toggles n t0)
    /\ documentDark t1 = darkMode (toggles n t0).
Proof.
  intros Hmount.
  assert (Hsync0 : themeInSync t0).
  { unfold mountTheme in Hmount.
    destruct (storage !! darkModeKey) as [saved|];
      [destruct (String.eqb saved EmptyString)|].
    - injection Hmount as <-. apply persistDarkMode_inSync.
    - destruct (JSON_parse saved) as [[| b | | | |]|]; try discriminate.
      injection Hmount as <-.
      apply setDarkMode_inSync, persistDarkMode_inSync.
    - injection Hmount as <-. apply persistDarkMode_inSync. }
  assert (Hsync : themeInSync (toggles n t0)).
  { destruct n as [|n]; [exact Hsync0|].
    rewrite toggles_succ. apply toggleDarkMode_inSync. }
  destruct Hsync as [Hstored _].
  eexists. split; [apply (mountTheme_stored _ _ Hstored)|].
  destruct (darkMode (toggles n t0)); split; reflexivity.
Qed.

End ThemeSessions.

Section ThemeSessionExamples.

Lemma parseBoolean_stringify (b : bool) :
  parseBoolean (JSON_stringify_bool b) = Return (JBool b).
Proof. destruct b; reflexivity. Qed.

Lemma mount_restores_stored_preference_witness :
  let storage : gmap string string := {[ darkModeKey := "true" ]} in
  exists t,
    mountTheme parseBoolean storage = Mounted t
    /\ darkMode t = true
    /\ documentDark t = true
    /\ localStorage t = storage
    /\ writes t = [(darkModeKey, "false"); (darkModeKey, "true")].
Proof.
  intros storage.
  apply (mount_restores_stored_preference parseBoolean parseBoolean_stringify
           storage true).
  apply lookup_singleton_eq.
Defined.

Lemma preference_survives_reload_witness :
  exists t1,
    mountTheme parseBoolean
      (localStorage (toggles 3 (persistDarkMode
         {| darkMode := false; localStorage := ∅; writes := [];
            documentDark := false |})))
    = Mounted t1
    /\ darkMode t1 = true.
Proof.
  assert (Hfirst : mountTheme parseBoolean ∅
                   = Mounted (persistDarkMode
                       {| darkMode := false; localStorage := ∅; writes := [];
                          documentDark := false |}))
    by (unfold mountTheme; rewrite lookup_empty; reflexivity).
  destruct (preference_survives_reload parseBoolean parseBoolean_stringify
              ∅ _ 3 Hfirst) as (t1 & Hm & Hd & _).
  exists t1. split; [exact Hm | rewrite Hd; reflexivity].
Defined.

End ThemeSessionExamples.

(** ** Searching while the log grows *)

Section SearchResults.

Lemma filteredEntries_app (es more : list Translation) (term : string) :
  filteredEntries (es ++ more) term
  = filteredEntries es term ++ filteredEntries more term.
Proof.
  unfold filteredEntries.
  destruct (String.eqb (trim term) EmptyString); [reflexivity|].
  apply List.filter_app.
Qed.

(** X19: loading more entries only appends results: for every search
    term, the view of the log at any moment is a prefix of the view after
    any further events, so a result once shown keeps its place. *)
Theorem results_prefix_preserved (p : Page) (evs : list UIEvent)
    (term : string) :
  filteredEntries (entries (live p)) term
  `prefix_of` filteredEntries (entries (live (runUI evs p))) term.
Proof.
  destruct (runUI_entries_prefix evs p) as [more ->].
  rewrite filteredEntries_app. apply prefix_app_r. reflexivity.
Qed.

Lemma period_texts (ts : list string) (k : nat) :
  List.map (fun i => text (entryAt ts i)) (seq (k * length ts) (length ts)) = ts.
Proof.
  apply list_eq. intros i.
  change (List.map ?f ?l) with (f <$> l). rewrite list_lookup_fmap.
  destruct (Nat.lt_ge_cases i (length ts)) as [Hlt | Hge].
  - rewrite lookup_seq_lt by exact Hlt. simpl.
    destruct (lookup_lt_is_Some_2 ts i Hlt) as [x Hx]. rewrite Hx. f_equal.
    replace ((k * length ts + i) mod length ts) with i
      by (apply (Nat.mod_unique _ (length ts) k); lia).
    apply nth_lookup_Some with (d := EmptyString) in Hx. exact Hx.
  - rewrite lookup_seq_ge by exact Hge. simpl. symmetry.
    apply lookup_ge_None_2, Hge.
Qed.

Lemma filter_map_length {A B : Type} (f : A -> B) (q : B -> bool) (l : list A) :
  length (List.filter (fun x => q (f x)) l)
  = length (List.filter q (List.map f l)).
Proof.
  induction l as [|x l IH]; [reflexivity|].
  simpl. destruct (q (f x)); simpl; rewrite IH; reflexivity.
Qed.

Lemma count_matches_periods (ts : list string) (q : string -> bool) (k : nat) :
  length (List.filter (fun e => q (text e))
            (List.map (entryAt ts) (seq 0 (k * length ts))))
  = k * length (List.filter q ts).
Proof.
  induction k as [|k IH]; [reflexivity|].
  replace (S k * length ts) with (k * length ts + length ts) by lia.
  rewrite seq_app, List.map_app, List.filter_app, length_app, IH. simpl.
  rewrite (filter_map_length text q), List.map_map, period_texts. lia.
Qed.

(** X20: at the end of the schedule in which React commits after every
    change, a search shows exactly 20 results for each source sentence
    that matches the term: once the rounds have reached the cap, the
    number of visible entries is 20 times the number of matching
    sentences of the source list. *)
Theorem full_log_result_count (ts : list string) (k : nat) (term : string) :
  ts <> [] -> 2 * length ts <= k + 1 -> allWhiteSpace term = false ->
  let s := live (runUI (scrollSession k) (pageLoaded ts)) in
  length (filteredEntries (entries s) term)
  = 20 * length (List.filter
                   (fun t => includes (toLowerCase t) (toLowerCase term)) ts).
Proof.
  intros Hne Hk Hterm s.
  destruct (scrollSession_settled ts k Hne) as (s' & Hrun & Hinv & _ & Hp).
  assert (Hs : s = s') by (subst s; rewrite Hrun; reflexivity).
  rewrite <- Hs in Hinv, Hp.
  rewrite (filteredEntries_filter _ term Hterm).
  destruct Hinv as (_ & Hes & _).
  replace (currentPage s * entriesPerPage) with (20 * length ts) in Hes
    by (rewrite Hp; unfold entriesPerPage; lia).
  rewrite Hes.
  apply (count_matches_periods ts
           (fun t => includes (toLowerCase t) (toLowerCase term)) 20).
Qed.

Lemma full_log_result_count_witness :
  let ts := ["I am Groot"; "We are Groot"] in
  let s := live (runUI (scrollSession 3) (pageLoaded ts)) in
  length (filteredEntries (entries s) "we") = 20 * 1.
Proof.
  intros ts s.
  apply (full_log_result_count ts 3 "we"); [discriminate | simpl; lia | reflexivity].
Defined.

End SearchResults.
